(** * Relocate-Engine: RigidBody and StatSystem

    A shallow embedding of [src/RigidBody.cpp] (the component wrapping a
    Box2D body) and of the [StatSystem] declared in [src/StatSystem.h],
    together with the properties the specification states about them.

    Conventions.
    - C++ [float] is a scalar type [F] with the three operations the sources
      use ([0.0f], [*], [/]); the code that does no arithmetic of its own is
      stated for every such [F].  The instance the C++ code runs on is
      [binary32], the IEEE-754 single precision format, through the Standard
      Library's [SpecFloat]; the value of a float is a rational number.
    - A [b2Body*] is an [option handle]: [None] is [nullptr], [Some h] points
      to the body stored under [h] in the physics world.
    - A member function that dereferences [body_] returns [option]: [None]
      stands for the dereference of a pointer that designates no body
      (undefined behaviour in C++; there is no error path to model). *)

From Stdlib Require Import ZArith SpecFloat QArith Qabs Qpower Lqa.
From stdpp Require Import base option numbers list gmap.

Set Default Proof Using "Type".
#[local] Set Warnings "-clear-no-such-hyp".

(** ** Scalars *)

Class Scalar (F : Type) := {
  fzero : F;
  fmul : F -> F -> F;
  fdiv : F -> F -> F
}.

(** IEEE-754 binary32, the representation of a C++ [float]. *)
Module Float32.
Definition prec : Z := 24.
Definition emax : Z := 128.
Definition float : Type := spec_float.
Definition zero : float := S754_zero false.
Definition mul : float -> float -> float := SFmul prec emax.
Definition div : float -> float -> float := SFdiv prec emax.
Definition add : float -> float -> float := SFadd prec emax.
(** The float nearest to an integer, as written by a literal such as
    [50.0f]. *)
Definition of_Z (n : Z) : float := binary_normalize prec emax n 0 false.
(** Finite and not a zero: neither NaN, nor an infinity, nor +0 or -0. *)
Definition is_finite_nonzero (x : float) : bool :=
  match x with
  | S754_finite _ _ _ => true
  | _ => false
  end.
(** The largest finite float, [FLT_MAX], and the smallest positive one. *)
Definition max_float : float := S754_finite false 16777215 104.
Definition min_subnormal : float := S754_finite false 1 (-149).
(** [2 ^ e] and the magnitude [m * 2 ^ e] of a finite float of mantissa [m]
    and exponent [e], as rational numbers. *)
Definition pow2 (e : Z) : Q := (2 ^ e)%Q.
Definition F2Q (m : positive) (e : Z) : Q := (inject_Z (Z.pos m) * pow2 e)%Q.
(** A normal number: finite, with a full mantissa of 24 bits, so neither a
    zero nor a subnormal (the result of an underflow) nor an infinity (the
    result of an overflow) nor NaN. *)
Definition is_normal (x : float) : bool :=
  match x with
  | S754_finite _ m _ => (8388608 <=? m)%positive
  | _ => false
  end.
(** [r] is [v] up to floating-point tolerance: for a finite non-zero [v],
    [r] is finite non-zero of the same sign and within [2 ^ -22] of [v]
    relative to [v] (twice [FLT_EPSILON]); a zero, an infinity or NaN is
    only matched by itself. *)
Definition within_tolerance (r v : float) : Prop :=
  match v with
  | S754_finite sv mv ev =>
      match r with
      | S754_finite sr mr er =>
          sr = sv /\
          (Qabs (F2Q mr er - F2Q mv ev) <= (1 # 4194304) * F2Q mv ev)%Q
      | _ => False
      end
  | _ => r = v
  end.
(** The mantissa [shr_m mrs] with its round and sticky bits places the
    rational [x]: [x] is the mantissa, or strictly between it and the next
    half, or that half, or strictly between the half and the next
    integer. *)
Definition in_place (x : Q) (mrs : shr_record) : Prop :=
  (0 <= shr_m mrs)%Z /\
  match shr_r mrs, shr_s mrs with
  | false, false => (x == inject_Z (shr_m mrs))%Q
  | false, true =>
      (inject_Z (shr_m mrs) < x)%Q /\ (x < inject_Z (shr_m mrs) + (1 # 2))%Q
  | true, false => (x == inject_Z (shr_m mrs) + (1 # 2))%Q
  | true, true =>
      (inject_Z (shr_m mrs) + (1 # 2) < x)%Q /\ (x < inject_Z (shr_m mrs) + 1)%Q
  end.
End Float32.

#[export] Instance binary32_scalar : Scalar Float32.float :=
  {| fzero := Float32.zero; fmul := Float32.mul; fdiv := Float32.div |}.

(** ** Vectors: [sf::Vector2f] (game space) and [b2Vec2] (engine space) *)

Record Vector2f (F : Type) := mkVector2f { vx : F; vy : F }.
Record b2Vec2 (F : Type) := mkb2Vec2 { bx : F; by_ : F }.
Arguments mkVector2f {F} _ _.
Arguments vx {F} _.
Arguments vy {F} _.
Arguments mkb2Vec2 {F} _ _.
Arguments bx {F} _.
Arguments by_ {F} _.

(** [b2Vec2(0, 0)] *)
Definition b2Vec2_zero {F} `{Scalar F} : b2Vec2 F := mkb2Vec2 fzero fzero.

(** ** PhysicsSystem: the unit conversion

    [PhysicsSystem.h] is not among the sources.  [RigidBody.cpp] uses two of
    its static members, which every definition below takes from this
    interface: the constant [PhysicsSystem::scale] and the function
    [PhysicsSystem::convertToB2] from game vectors to engine vectors. *)
Class PhysicsSystem (F : Type) := {
  scale : F;
  convertToB2 : Vector2f F -> b2Vec2 F
}.

(** Modelled from the spec: [PhysicsSystem::convertToB2] is called by
    [RigidBody.cpp] but defined in [PhysicsSystem.cpp], which is not among the
    sources.  The spec describes a linear unit-scale conversion by a fixed
    factor; the setters of [RigidBody.cpp] that store game values in engine
    structures divide by [PhysicsSystem::scale], and so does this model.  The
    theorems below hold for every conversion function; this one only serves
    concrete evaluations. *)
Definition convertToB2_scaled {F} `{Scalar F} (k : F) (v : Vector2f F)
  : b2Vec2 F :=
  mkb2Vec2 (fdiv (vx v) k) (fdiv (vy v) k).

Definition PhysicsSystem_scaled {F} `{Scalar F} (k : F) : PhysicsSystem F :=
  {| scale := k; convertToB2 := convertToB2_scaled k |}.

(** ** Box2D: the calls the component makes

    Box2D is an external library.  A body is modelled by the state its
    accessors expose ([GetAngle], [GetGravityScale], ...), each call by its
    documented effect on that state, and the force and impulse calls by a
    log of the calls received, in order.  The world is the one handed to
    [RigidBody::registerFunctions], outside of a simulation step. *)
Module Box2D.

Inductive b2BodyType := b2_staticBody | b2_kinematicBody | b2_dynamicBody.

(** A shape as the factories leave it.  A polygon is kept by the
    half-extents handed to [SetAsBox], a circle by [m_p] and [m_radius], an
    edge by the two vertices handed to [Set]. *)
Inductive b2Shape (F : Type) :=
| b2PolygonShape (hx hy : F)
| b2CircleShape (m_p : b2Vec2 F) (m_radius : F)
| b2EdgeShape (m_vertex1 m_vertex2 : b2Vec2 F).
Arguments b2PolygonShape {F} _ _.
Arguments b2CircleShape {F} _ _.
Arguments b2EdgeShape {F} _ _.

(** [b2FixtureDef]: the fields the script binding exposes.  [shape] is a
    pointer and may be null. *)
Record b2FixtureDef (F : Type) := mkFixtureDef {
  shape : option (b2Shape F);
  density : F;
  friction : F;
  restitution : F
}.
Arguments mkFixtureDef {F} _ _ _ _.
Arguments shape {F} _.
Arguments density {F} _.
Arguments friction {F} _.
Arguments restitution {F} _.

(** [b2BodyDef]: the fields a body is initialised from. *)
Record b2BodyDef (F : Type) := mkBodyDef {
  type : b2BodyType;
  position : b2Vec2 F;
  angle : F;
  linearVelocity : b2Vec2 F;
  gravityScale : F
}.
Arguments mkBodyDef {F} _ _ _ _ _.
Arguments type {F} _.
Arguments position {F} _.
Arguments angle {F} _.
Arguments linearVelocity {F} _.
Arguments gravityScale {F} _.

(** A force or impulse call received by a body. *)
Inductive b2Applied (F : Type) :=
| ApplyForce (force point : b2Vec2 F) (wake : bool)
| ApplyForceToCenter (force : b2Vec2 F) (wake : bool)
| ApplyLinearImpulse (impulse point : b2Vec2 F) (wake : bool)
| ApplyLinearImpulseToCenter (impulse : b2Vec2 F) (wake : bool).
Arguments ApplyForce {F} _ _ _.
Arguments ApplyForceToCenter {F} _ _.
Arguments ApplyLinearImpulse {F} _ _ _.
Arguments ApplyLinearImpulseToCenter {F} _ _.

Record b2Body (F : Type) := mkBody {
  m_type : b2BodyType;
  m_xf_p : b2Vec2 F;             (* m_xf.p, the position *)
  m_sweep_a : F;                 (* m_sweep.a, the angle *)
  m_linearVelocity : b2Vec2 F;
  m_gravityScale : F;
  m_fixtureList : list (b2FixtureDef F);
  m_applied : list (b2Applied F) (* force and impulse calls, oldest first *)
}.
Arguments mkBody {F} _ _ _ _ _ _ _.
Arguments m_type {F} _.
Arguments m_xf_p {F} _.
Arguments m_sweep_a {F} _.
Arguments m_linearVelocity {F} _.
Arguments m_gravityScale {F} _.
Arguments m_fixtureList {F} _.
Arguments m_applied {F} _.

(** The transform arithmetic of [b2Body::GetWorldPoint], [b2Mul(m_xf, p)]:
    a function of the body's position and angle and of the local point. *)
Class b2Math (F : Type) := {
  b2Mul : b2Vec2 F -> F -> b2Vec2 F -> b2Vec2 F
}.

Section Body.
Context {F : Type} `{b2Math F}.

(** The constructor of [b2Body], from a body definition. *)
Definition b2Body_new (def : b2BodyDef F) : b2Body F :=
  {| m_type := type def;
     m_xf_p := position def;
     m_sweep_a := angle def;
     m_linearVelocity := linearVelocity def;
     m_gravityScale := gravityScale def;
     m_fixtureList := [];
     m_applied := [] |}.

Definition GetAngle (b : b2Body F) : F := m_sweep_a b.
Definition GetPosition (b : b2Body F) : b2Vec2 F := m_xf_p b.
Definition GetLinearVelocity (b : b2Body F) : b2Vec2 F := m_linearVelocity b.
Definition GetGravityScale (b : b2Body F) : F := m_gravityScale b.

Definition GetWorldPoint (localPoint : b2Vec2 F) (b : b2Body F) : b2Vec2 F :=
  b2Mul (m_xf_p b) (m_sweep_a b) localPoint.

Definition SetTransform (p : b2Vec2 F) (a : F) (b : b2Body F) : b2Body F :=
  {| m_type := m_type b;
     m_xf_p := p;
     m_sweep_a := a;
     m_linearVelocity := m_linearVelocity b;
     m_gravityScale := m_gravityScale b;
     m_fixtureList := m_fixtureList b;
     m_applied := m_applied b |}.

Definition SetLinearVelocity (v : b2Vec2 F) (b : b2Body F) : b2Body F :=
  {| m_type := m_type b;
     m_xf_p := m_xf_p b;
     m_sweep_a := m_sweep_a b;
     m_linearVelocity := v;
     m_gravityScale := m_gravityScale b;
     m_fixtureList := m_fixtureList b;
     m_applied := m_applied b |}.

Definition SetGravityScale (g : F) (b : b2Body F) : b2Body F :=
  {| m_type := m_type b;
     m_xf_p := m_xf_p b;
     m_sweep_a := m_sweep_a b;
     m_linearVelocity := m_linearVelocity b;
     m_gravityScale := g;
     m_fixtureList := m_fixtureList b;
     m_applied := m_applied b |}.

(** [b2Body::CreateFixture] clones [def->shape]: a
    definition without a shape is a null dereference inside the engine. *)
Definition CreateFixture (def : b2FixtureDef F) (b : b2Body F)
  : option (b2Body F) :=
  match shape def with
  | None => None
  | Some _ =>
      Some {| m_type := m_type b;
              m_xf_p := m_xf_p b;
              m_sweep_a := m_sweep_a b;
              m_linearVelocity := m_linearVelocity b;
              m_gravityScale := m_gravityScale b;
              m_fixtureList := def :: m_fixtureList b;
              m_applied := m_applied b |}
  end.

(** The four force and impulse entry points: the call is appended to the
    body's log. *)
Definition b2Apply (c : b2Applied F) (b : b2Body F) : b2Body F :=
  {| m_type := m_type b;
     m_xf_p := m_xf_p b;
     m_sweep_a := m_sweep_a b;
     m_linearVelocity := m_linearVelocity b;
     m_gravityScale := m_gravityScale b;
     m_fixtureList := m_fixtureList b;
     m_applied := m_applied b ++ [c] |}.

(** [b2World]: the bodies it owns, by handle (the address of the body). *)
Record b2World := mkWorld { m_bodyList : gmap nat (b2Body F) }.

(** [b2World::CreateBody]: a new body at an address no
    body of the world has. *)
Definition CreateBody (w : b2World) (def : b2BodyDef F) : nat * b2World :=
  let h := fresh (dom (m_bodyList w)) in
  (h, {| m_bodyList := <[h := b2Body_new def]> (m_bodyList w) |}).

End Body.
Arguments b2World F : clear implicits.

End Box2D.
Import Box2D.

(** ** RigidBody.cpp *)
Module RigidBody.

(** The data members of the component.  [physics_] always designates the
    world given to [registerFunctions]; that world is the [world] of the
    program state below.  [disposeList_] holds the handles queued for a
    deferred destroy, oldest first. *)
Record RigidBody (F : Type) := mkRigidBody {
  body_ : option nat;
  previousPosition_ : b2Vec2 F;
  previousAngle_ : F;
  isOutOfSync_ : bool;
  disposeList_ : list nat
}.
Arguments mkRigidBody {F} _ _ _ _ _.
Arguments body_ {F} _.
Arguments previousPosition_ {F} _.
Arguments previousAngle_ {F} _.
Arguments isOutOfSync_ {F} _.
Arguments disposeList_ {F} _.

(** The program state a member function runs in: the physics world and the
    component itself. *)
Record State (F : Type) := mkState {
  world : b2World F;
  self : RigidBody F
}.
Arguments mkState {F} _ _.
Arguments world {F} _.
Arguments self {F} _.

Section Component.
Context {F : Type} `{Scalar F} `{PhysicsSystem F} `{b2Math F}.

(** *** Shape factories *)

Definition BoxShape (w h : F) : b2Shape F :=
  let pos := convertToB2 (mkVector2f w h) in
  b2PolygonShape (bx pos) (by_ pos).

Definition CircleShape (x y r : F) : b2Shape F :=
  let pos := convertToB2 (mkVector2f x y) in
  b2CircleShape (mkb2Vec2 (bx pos) (by_ pos)) r.

Definition LineShape (x1 y1 x2 y2 : F) : b2Shape F :=
  let begin_ := convertToB2 (mkVector2f x1 y1) in
  let end_ := convertToB2 (mkVector2f x2 y2) in
  b2EdgeShape begin_ end_.

(** *** Script properties of [FixtureDef] (the getter and setter lambdas
    registered in [registerFunctions]) *)

Definition density_get (self : b2FixtureDef F) : F :=
  fmul (density self) scale.
Definition density_set (self : b2FixtureDef F) (d : F) : b2FixtureDef F :=
  {| shape := shape self;
     density := fdiv d scale;
     friction := friction self;
     restitution := restitution self |}.

Definition friction_get (self : b2FixtureDef F) : F :=
  fmul (friction self) scale.
Definition friction_set (self : b2FixtureDef F) (f : F) : b2FixtureDef F :=
  {| shape := shape self;
     density := density self;
     friction := fdiv f scale;
     restitution := restitution self |}.

Definition restitution_get (self : b2FixtureDef F) : F :=
  fmul (restitution self) scale.
Definition restitution_set (self : b2FixtureDef F) (r : F) : b2FixtureDef F :=
  {| shape := shape self;
     density := density self;
     friction := friction self;
     restitution := fdiv r scale |}.

(** *** Calls through [body_] *)

(** The body [body_] points to, if it points to one. *)
Definition deref (s : State F) : option (b2Body F) :=
  h ← body_ (self s); m_bodyList (world s) !! h.

(** [body_->query()]: read the body. *)
Definition query {A} (q : b2Body F -> A) (s : State F) : option A :=
  b ← deref s; Some (q b).

(** The state in which the body at [h] has become [b]. *)
Definition store (h : nat) (b : b2Body F) (s : State F) : State F :=
  {| world := {| m_bodyList := <[h := b]> (m_bodyList (world s)) |};
     self := self s |}.

(** [body_->method(...)]: run a method on the body and store the result. *)
Definition call (m : b2Body F -> option (b2Body F)) (s : State F)
  : option (State F) :=
  h ← body_ (self s);
  b ← m_bodyList (world s) !! h;
  b' ← m b;
  Some (store h b' s).

(** *** Script property [gravity] of [RigidBody] *)

Definition gravity_get (s : State F) : option F :=
  query GetGravityScale s.
Definition gravity_set (g : F) (s : State F) : option (State F) :=
  call (fun b => Some (SetGravityScale g b)) s.

(** *** Constructor *)

Definition new (worldToSpawnIn_ : b2World F)
    (defaultBodyDefinition_ : b2BodyDef F) : State F :=
  let '(h, w) := CreateBody worldToSpawnIn_ defaultBodyDefinition_ in
  {| world := w;
     self := {| body_ := Some h;
                previousPosition_ := mkb2Vec2 fzero fzero;
                previousAngle_ := fzero;
                isOutOfSync_ := true;
                disposeList_ := [] |} |}.

(** *** instantiateBody, statement by statement *)

(** [disposeList_.push_back(body_);] inside the guard, [h] being [body_]. *)
Definition push_dispose (h : nat) (s : State F) : State F :=
  {| world := world s;
     self := {| body_ := body_ (self s);
                previousPosition_ := previousPosition_ (self s);
                previousAngle_ := previousAngle_ (self s);
                isOutOfSync_ := isOutOfSync_ (self s);
                disposeList_ := disposeList_ (self s) ++ [h] |} |}.

(** [body_ = nullptr;] *)
Definition null_body (s : State F) : State F :=
  {| world := world s;
     self := {| body_ := None;
                previousPosition_ := previousPosition_ (self s);
                previousAngle_ := previousAngle_ (self s);
                isOutOfSync_ := isOutOfSync_ (self s);
                disposeList_ := disposeList_ (self s) |} |}.

(** [body_ = physics_->CreateBody(&def);] *)
Definition create_body (def : b2BodyDef F) (s : State F) : State F :=
  let '(h, w) := CreateBody (world s) def in
  {| world := w;
     self := {| body_ := Some h;
                previousPosition_ := previousPosition_ (self s);
                previousAngle_ := previousAngle_ (self s);
                isOutOfSync_ := isOutOfSync_ (self s);
                disposeList_ := disposeList_ (self s) |} |}.

(** [isOutOfSync_ = true;] *)
Definition mark_out_of_sync (s : State F) : State F :=
  {| world := world s;
     self := {| body_ := body_ (self s);
                previousPosition_ := previousPosition_ (self s);
                previousAngle_ := previousAngle_ (self s);
                isOutOfSync_ := true;
                disposeList_ := disposeList_ (self s) |} |}.

(** The guarded block [if (body_ != nullptr) { ... }]. *)
Definition relinquish (s : State F) : State F :=
  match body_ (self s) with
  | Some h => null_body (push_dispose h s)
  | None => s
  end.

Definition instantiateBody (def : b2BodyDef F) (s : State F) : State F :=
  mark_out_of_sync (create_body def (relinquish s)).

(** The states [instantiateBody] goes through, one after each statement it
    executes, the last one being the state it returns in. *)
Definition instantiateBody_points (def : b2BodyDef F) (s : State F)
  : list (State F) :=
  let guarded :=
    match body_ (self s) with
    | Some h => [push_dispose h s; null_body (push_dispose h s)]
    | None => []
    end in
  guarded ++ [create_body def (relinquish s);
              mark_out_of_sync (create_body def (relinquish s))].

(** A run of [instantiate] calls from [s]: the state after the whole run,
    and every state gone through, the initial one included. *)
Fixpoint instantiate_all (defs : list (b2BodyDef F)) (s : State F) : State F :=
  match defs with
  | [] => s
  | def :: defs => instantiate_all defs (instantiateBody def s)
  end.

Fixpoint instantiate_all_points (defs : list (b2BodyDef F)) (s : State F)
  : list (State F) :=
  match defs with
  | [] => [s]
  | def :: defs =>
      s :: instantiateBody_points def s
        ++ tail (instantiate_all_points defs (instantiateBody def s))
  end.

(** The bodies the component references as its own at a point of a run
    that started in the world [w0]: [current] is what [body_] designates;
    [unqueued] are the live bodies created since [w0] that are not on the
    dispose list. *)
Definition current (s : State F) : gset nat :=
  match body_ (self s) with
  | Some h => {[ h ]}
  | None => ∅
  end.

Definition unqueued (w0 : b2World F) (s : State F) : gset nat :=
  dom (m_bodyList (world s)) ∖ dom (m_bodyList w0)
    ∖ list_to_set (disposeList_ (self s)).

(** What holds at every point of a run: the bodies created since [w0] and
    not queued are among what [body_] designates, which is live. *)
Definition at_most_current (w0 : b2World F) (s : State F) : Prop :=
  unqueued w0 s ⊆ current s /\
  current s ⊆ dom (m_bodyList (world s)).

(** What holds between two calls: [body_] designates a live body created
    since [w0] that is not queued, and it is the only such body. *)
Definition stable (w0 : b2World F) (s : State F) : Prop :=
  unqueued w0 s = current s /\
  (exists h, body_ (self s) = Some h) /\
  dom (m_bodyList w0) ⊆ dom (m_bodyList (world s)) /\
  list_to_set (disposeList_ (self s)) ⊆ dom (m_bodyList (world s)).

(** *** addFixture *)

Definition addFixture (def : b2FixtureDef F) (s : State F)
  : option (State F) :=
  call (CreateFixture def) s.

(** *** warpTo *)

Definition warpToVec (dest : Vector2f F) (s : State F) : option (State F) :=
  a ← query GetAngle s;
  s1 ← call (fun b => Some (SetTransform (convertToB2 dest) a b)) s;
  call (fun b => Some (SetLinearVelocity (mkb2Vec2 fzero fzero) b)) s1.

Definition warpTo (x y : F) (s : State F) : option (State F) :=
  warpToVec (mkVector2f x y) s.

(** *** Forces *)

Definition applyForceToCentreVec (force : Vector2f F) (s : State F)
  : option (State F) :=
  call (fun b => Some (b2Apply (ApplyForceToCenter (convertToB2 force) true) b)) s.

Definition applyForceToCentre (i j : F) (s : State F) : option (State F) :=
  applyForceToCentreVec (mkVector2f i j) s.

Definition applyForceRelVec (force relPos : Vector2f F) (s : State F)
  : option (State F) :=
  p ← query (GetWorldPoint (convertToB2 relPos)) s;
  call (fun b => Some (b2Apply (ApplyForce (convertToB2 force) p true) b)) s.

Definition applyForceRel (i j x y : F) (s : State F) : option (State F) :=
  applyForceRelVec (mkVector2f i j) (mkVector2f x y) s.

Definition applyForceVec (force location : Vector2f F) (s : State F)
  : option (State F) :=
  call (fun b => Some (b2Apply
          (ApplyForce (convertToB2 force) (convertToB2 location) true) b)) s.

Definition applyForce (i j x y : F) (s : State F) : option (State F) :=
  applyForceVec (mkVector2f i j) (mkVector2f x y) s.

(** *** Impulses *)

Definition applyImpulseToCentreVec (impulse : Vector2f F) (s : State F)
  : option (State F) :=
  call (fun b => Some (b2Apply
          (ApplyLinearImpulseToCenter (convertToB2 impulse) true) b)) s.

Definition applyImpulseToCentre (i j : F) (s : State F) : option (State F) :=
  applyImpulseToCentreVec (mkVector2f i j) s.

Definition applyImpulseRelVec (impulse relPos : Vector2f F) (s : State F)
  : option (State F) :=
  p ← query (GetWorldPoint (convertToB2 relPos)) s;
  call (fun b => Some (b2Apply
          (ApplyLinearImpulse (convertToB2 impulse) p true) b)) s.

Definition applyImpulseRel (i j x y : F) (s : State F) : option (State F) :=
  applyImpulseRelVec (mkVector2f i j) (mkVector2f x y) s.

Definition applyImpulseVec (impulse location : Vector2f F) (s : State F)
  : option (State F) :=
  call (fun b => Some (b2Apply
          (ApplyLinearImpulse (convertToB2 impulse) (convertToB2 location) true)
          b)) s.

Definition applyImpulse (i j x y : F) (s : State F) : option (State F) :=
  applyImpulseVec (mkVector2f i j) (mkVector2f x y) s.

(** *** The methods bound to the script type

    [registerFunctions] binds the member functions to the usertype
    [RigidBody] under the names [instantiate], [addFixture], [warpTo],
    [applyForce], ... (an overloaded name standing for the scalar and the
    vector member) and the property [gravity].  A script drives a component
    by a sequence of such calls; a call that reads only ([gravity] as a
    getter) changes no state and is left out. *)
Inductive Method (F : Type) :=
| M_instantiate (def : b2BodyDef F)
| M_addFixture (def : b2FixtureDef F)
| M_warpTo (x y : F)
| M_warpToVec (dest : Vector2f F)
| M_gravity (g : F)
| M_applyForce (i j x y : F)
| M_applyForceVec (force location : Vector2f F)
| M_applyForceToCentre (i j : F)
| M_applyForceToCentreVec (force : Vector2f F)
| M_applyForceRel (i j x y : F)
| M_applyForceRelVec (force relPos : Vector2f F)
| M_applyImpulse (i j x y : F)
| M_applyImpulseVec (impulse location : Vector2f F)
| M_applyImpulseToCentre (i j : F)
| M_applyImpulseToCentreVec (impulse : Vector2f F)
| M_applyImpulseRel (i j x y : F)
| M_applyImpulseRelVec (impulse relPos : Vector2f F).

End Component.

Arguments M_instantiate {F} _.
Arguments M_addFixture {F} _.
Arguments M_warpTo {F} _ _.
Arguments M_warpToVec {F} _.
Arguments M_gravity {F} _.
Arguments M_applyForce {F} _ _ _ _.
Arguments M_applyForceVec {F} _ _.
Arguments M_applyForceToCentre {F} _ _.
Arguments M_applyForceToCentreVec {F} _.
Arguments M_applyForceRel {F} _ _ _ _.
Arguments M_applyForceRelVec {F} _ _.
Arguments M_applyImpulse {F} _ _ _ _.
Arguments M_applyImpulseVec {F} _ _.
Arguments M_applyImpulseToCentre {F} _ _.
Arguments M_applyImpulseToCentreVec {F} _.
Arguments M_applyImpulseRel {F} _ _ _ _.
Arguments M_applyImpulseRelVec {F} _ _.

Section Scripts.
Context {F : Type} `{Scalar F} `{PhysicsSystem F} `{b2Math F}.

(** One script call on the component. *)
Definition invoke (m : Method F) (s : State F) : option (State F) :=
  match m with
  | M_instantiate def => Some (instantiateBody def s)
  | M_addFixture def => addFixture def s
  | M_warpTo x y => warpTo x y s
  | M_warpToVec dest => warpToVec dest s
  | M_gravity g => gravity_set g s
  | M_applyForce i j x y => applyForce i j x y s
  | M_applyForceVec force location => applyForceVec force location s
  | M_applyForceToCentre i j => applyForceToCentre i j s
  | M_applyForceToCentreVec force => applyForceToCentreVec force s
  | M_applyForceRel i j x y => applyForceRel i j x y s
  | M_applyForceRelVec force relPos => applyForceRelVec force relPos s
  | M_applyImpulse i j x y => applyImpulse i j x y s
  | M_applyImpulseVec impulse location => applyImpulseVec impulse location s
  | M_applyImpulseToCentre i j => applyImpulseToCentre i j s
  | M_applyImpulseToCentreVec impulse => applyImpulseToCentreVec impulse s
  | M_applyImpulseRel i j x y => applyImpulseRel i j x y s
  | M_applyImpulseRelVec impulse relPos => applyImpulseRelVec impulse relPos s
  end.

(** A sequence of script calls, stopping at the first fault. *)
Fixpoint run (ms : list (Method F)) (s : State F) : option (State F) :=
  match ms with
  | [] => Some s
  | m :: ms => s' ← invoke m s; run ms s'
  end.

(** The fixture definition of an [addFixture] call has a shape; true of
    every other call. *)
Definition has_shape (m : Method F) : bool :=
  match m with
  | M_addFixture def => bool_decide (is_Some (shape def))
  | _ => true
  end.

Definition is_instantiate (m : Method F) : bool :=
  match m with
  | M_instantiate _ => true
  | _ => false
  end.

(** The handles of a component are in order: [body_] designates a live
    body that is not queued, and the queued handles are live and pairwise
    distinct. *)
Definition handles_in_order (s : State F) : Prop :=
  (exists h, body_ (self s) = Some h /\
             h ∈ dom (m_bodyList (world s)) /\
             h ∉ disposeList_ (self s)) /\
  NoDup (disposeList_ (self s)) /\
  (forall h, h ∈ disposeList_ (self s) -> h ∈ dom (m_bodyList (world s))).

End Scripts.

End RigidBody.

(** ** StatSystem *)
Module StatSystem.

(** Modelled from the spec: [Stats.h] and [Movement.h] are not among the
    sources.  The spec describes both components as plain structs with
    numeric fields, a stat value being mapped into a speed field. *)
Record Stats (F : Type) := mkStats { stat_speed : F }.
Record Movement (F : Type) := mkMovement { speed : F }.
Arguments mkStats {F} _.
Arguments stat_speed {F} _.
Arguments mkMovement {F} _.
Arguments speed {F} _.

(** An entity of the ECS world, by the two components the system looks at:
    each is present ([Some]) or absent ([None]). *)
Record Entity (F : Type) := mkEntity {
  stats : option (Stats F);
  movement : option (Movement F)
}.
Arguments mkEntity {F} _ _.
Arguments stats {F} _.
Arguments movement {F} _.

Section System.
Context {F : Type}.

(** Modelled from the spec: [StatSystem::writeMovementStats] is declared in
    [StatSystem.h] (it reads the [Stats] handle and writes the [Movement]
    handle) and defined in [StatSystem.cpp], which is not among the sources.
    Per the spec it copies the relevant stat fields into movement fields. *)
Definition writeMovementStats (s : Stats F) (m : Movement F) : Movement F :=
  {| speed := stat_speed s |}.

(** What one tick does to one entity: an entity with both components has
    its movement component written, any other is skipped. *)
Definition update_entity (e : Entity F) : Entity F :=
  match stats e, movement e with
  | Some s, Some m =>
      {| stats := Some s; movement := Some (writeMovementStats s m) |}
  | _, _ => e
  end.

(** Modelled from the spec: [StatSystem::update] is declared in
    [StatSystem.h] and defined in [StatSystem.cpp], which is not among the
    sources.  Per the spec, each tick it visits every entity that has both a
    [Stats] and a [Movement] component and copies the stats into the
    movement component; entities lacking either are skipped.  [dt] is the
    frame time, in microseconds as [sf::Time] holds it. *)
Definition update (world : list (Entity F)) (dt : Z) : list (Entity F) :=
  update_entity <$> world.

End System.

End StatSystem.

Import RigidBody.
Import StatSystem.

(** ** Sample values

    Concrete [binary32] values on which the operations are evaluated. *)
Module Sample.

Definition origin : b2Vec2 Float32.float :=
  mkb2Vec2 Float32.zero Float32.zero.

Definition staticDef : b2BodyDef Float32.float :=
  mkBodyDef b2_staticBody origin Float32.zero origin (Float32.of_Z 1).

Definition dynamicDef : b2BodyDef Float32.float :=
  mkBodyDef b2_dynamicBody
    (mkb2Vec2 (Float32.of_Z 3) (Float32.of_Z 4)) Float32.zero
    (mkb2Vec2 (Float32.of_Z 1) (Float32.of_Z 2)) (Float32.of_Z 1).

(** A physics system with the factor 100. *)
Definition physics : PhysicsSystem Float32.float :=
  PhysicsSystem_scaled (Float32.of_Z 100).

(** [b2Mul] for a body whose angle is zero, where the rotation is the
    identity: the local point translated by the position of the body. *)
Definition unrotated : b2Math Float32.float :=
  {| b2Mul p a v :=
       mkb2Vec2 (Float32.add (bx v) (bx p)) (Float32.add (by_ v) (by_ p)) |}.

Definition emptyWorld : b2World Float32.float := mkWorld ∅.

(** A component right after its construction with [dynamicDef] as the
    default body definition, and the same component with a null [body_]. *)
Definition fresh_component : State Float32.float := new emptyWorld dynamicDef.
Definition null_component : State Float32.float := null_body fresh_component.

Definition boxFixture : b2FixtureDef Float32.float :=
  mkFixtureDef
    (Some (b2PolygonShape (Float32.of_Z 1) (Float32.of_Z 1)))
    (Float32.of_Z 1) Float32.zero Float32.zero.

End Sample.

(** * Properties *)

(** ** Shape factories *)

Section ShapeFactories.
Context {F : Type} `{Scalar F} `{PhysicsSystem F}.

Lemma b2Vec2_eta (v : b2Vec2 F) : mkb2Vec2 (bx v) (by_ v) = v.
Proof. by destruct v. Qed.

Lemma BoxShape_converts (w h : F) :
  BoxShape w h =
  b2PolygonShape (bx (convertToB2 (mkVector2f w h)))
                 (by_ (convertToB2 (mkVector2f w h))).
Proof. reflexivity. Qed.

Lemma LineShape_converts (x1 y1 x2 y2 : F) :
  LineShape x1 y1 x2 y2 =
  b2EdgeShape (convertToB2 (mkVector2f x1 y1)) (convertToB2 (mkVector2f x2 y2)).
Proof. reflexivity. Qed.

Lemma CircleShape_centre_converted_radius_kept (x y r : F) :
  CircleShape x y r = b2CircleShape (convertToB2 (mkVector2f x y)) r.
Proof. unfold CircleShape. by rewrite b2Vec2_eta. Qed.

End ShapeFactories.

(** C4. The shape factories convert their game-space arguments to engine
    units, with one exception: [CircleShape] converts the centre and stores
    the radius as it was given, whatever the conversion is.  With a factor
    of 2, [CircleShape(4, 6, 10)] is the circle of centre (2, 3) and radius
    10, where the conversion takes 10 to 5; [BoxShape(4, 6)] has the
    half-extents (2, 3) and [LineShape(4, 6, 8, 10)] runs from (2, 3) to
    (4, 5). *)
Theorem shape_factories_units :
  (forall (F : Type) (S : Scalar F) (P : PhysicsSystem F) (x y r : F),
      CircleShape x y r = b2CircleShape (convertToB2 (mkVector2f x y)) r) /\
  let P := PhysicsSystem_scaled (Float32.of_Z 2) in
  CircleShape (Float32.of_Z 4) (Float32.of_Z 6) (Float32.of_Z 10)
    = b2CircleShape (mkb2Vec2 (Float32.of_Z 2) (Float32.of_Z 3))
        (Float32.of_Z 10) /\
  bx (convertToB2 (mkVector2f (Float32.of_Z 10) (Float32.of_Z 10)))
    = Float32.of_Z 5 /\
  Float32.of_Z 10 <> Float32.of_Z 5 /\
  BoxShape (Float32.of_Z 4) (Float32.of_Z 6)
    = b2PolygonShape (Float32.of_Z 2) (Float32.of_Z 3) /\
  LineShape (Float32.of_Z 4) (Float32.of_Z 6) (Float32.of_Z 8)
      (Float32.of_Z 10)
    = b2EdgeShape (mkb2Vec2 (Float32.of_Z 2) (Float32.of_Z 3))
        (mkb2Vec2 (Float32.of_Z 4) (Float32.of_Z 5)).
Proof.
  split.
  - intros. apply CircleShape_centre_converted_radius_kept.
  - vm_compute. repeat split; discriminate.
Qed.

(** ** Script properties of FixtureDef *)

Section FixtureProperties.
Context {F : Type} `{Scalar F} `{PhysicsSystem F}.

(** In every arithmetic, [binary32] included: a getter multiplies the stored
    field by the factor, a setter stores the quotient by the factor and
    touches no other field. *)
Lemma fixture_getters (fd : b2FixtureDef F) :
  density_get fd = fmul (density fd) scale /\
  friction_get fd = fmul (friction fd) scale /\
  restitution_get fd = fmul (restitution fd) scale.
Proof. done. Qed.

Lemma fixture_setters (fd : b2FixtureDef F) (v : F) :
  density_set fd v =
    mkFixtureDef (shape fd) (fdiv v scale) (friction fd) (restitution fd) /\
  friction_set fd v =
    mkFixtureDef (shape fd) (density fd) (fdiv v scale) (restitution fd) /\
  restitution_set fd v =
    mkFixtureDef (shape fd) (density fd) (friction fd) (fdiv v scale).
Proof. done. Qed.

End FixtureProperties.

(** On [binary32] the round trip through a setter and its getter is exact
    for some values and one unit in the last place off for others: with the
    factor 100, 1.0f reads back as 1.0f and 15.0f as the float just above
    15.0f. *)
Example density_roundtrip_binary32 :
  let P := PhysicsSystem_scaled (Float32.of_Z 100) in
  let fd := mkFixtureDef None Float32.zero Float32.zero Float32.zero in
  density_get (density_set fd (Float32.of_Z 1)) = Float32.of_Z 1 /\
  density_get (density_set fd (Float32.of_Z 15))
    = S754_finite false 15728641 (-20) /\
  Float32.of_Z 15 = S754_finite false 15728640 (-20).
Proof. vm_compute. done. Qed.

(** ** Calls through the body handle *)

Section Calls.
Context {F : Type} `{Scalar F} `{PhysicsSystem F} `{b2Math F}.
Implicit Types (s : State F) (b : b2Body F) (h : nat).

Lemma deref_valid s h b :
  body_ (self s) = Some h -> m_bodyList (world s) !! h = Some b ->
  deref s = Some b.
Proof. intros Hh Hb. unfold deref. by rewrite Hh. Qed.

Lemma deref_inv s b :
  deref s = Some b ->
  exists h, body_ (self s) = Some h /\ m_bodyList (world s) !! h = Some b.
Proof.
  unfold deref. destruct (body_ (self s)) as [h|]; [|done]. eauto.
Qed.

Lemma deref_null s : body_ (self s) = None -> deref s = None.
Proof. intros Hn. unfold deref. by rewrite Hn. Qed.

Lemma deref_store s h b :
  body_ (self s) = Some h -> deref (store h b s) = Some b.
Proof.
  intros Hh. unfold deref, store. cbn. rewrite Hh. cbn.
  apply lookup_insert_eq.
Qed.

Lemma query_valid {A} (q : b2Body F -> A) s b :
  deref s = Some b -> query q s = Some (q b).
Proof. intros Hd. unfold query. by rewrite Hd. Qed.

Lemma call_valid (m : b2Body F -> option (b2Body F)) s h b b' :
  body_ (self s) = Some h -> m_bodyList (world s) !! h = Some b ->
  m b = Some b' ->
  call m s = Some (store h b' s).
Proof.
  intros Hh Hb Hm. unfold call. rewrite Hh. cbn. rewrite Hb. cbn.
  by rewrite Hm.
Qed.

Lemma query_fault {A} (q : b2Body F -> A) s :
  deref s = None -> query q s = None.
Proof. intros Hd. unfold query. by rewrite Hd. Qed.

Lemma call_fault (m : b2Body F -> option (b2Body F)) s :
  deref s = None -> call m s = None.
Proof.
  unfold deref, call. destruct (body_ (self s)) as [h|]; [|done].
  cbn. by intros ->.
Qed.

(** A call of a method that cannot fail succeeds exactly when [body_]
    designates a body. *)
Lemma call_total_is_Some (m : b2Body F -> b2Body F) s :
  is_Some (call (fun b => Some (m b)) s) <-> is_Some (deref s).
Proof.
  destruct (deref s) as [b|] eqn:Hd.
  - destruct (deref_inv _ _ Hd) as (h & Hh & Hb).
    erewrite call_valid by eauto. split; eauto.
  - rewrite call_fault by done. done.
Qed.

Lemma query_is_Some {A} (q : b2Body F -> A) s :
  is_Some (query q s) <-> is_Some (deref s).
Proof.
  unfold query. destruct (deref s) as [b|]; cbn.
  - split; eauto.
  - split; intros [x Hx]; discriminate.
Qed.

(** A stored body keeps [self] and every other body of the world. *)
Lemma store_self s h b : self (store h b s) = self s.
Proof. done. Qed.

Lemma store_other s h b h' :
  h' <> h -> m_bodyList (world (store h b s)) !! h' = m_bodyList (world s) !! h'.
Proof. intros Hne. cbn. by apply lookup_insert_ne. Qed.

Lemma store_store s h b1 b2 : store h b2 (store h b1 s) = store h b2 s.
Proof. unfold store. cbn. by rewrite insert_insert_eq. Qed.

End Calls.

(** ** instantiate *)

Section Instantiate.
Context {F : Type} `{Scalar F}.
Implicit Types (s : State F) (def : b2BodyDef F) (h : nat).

Lemma world_relinquish s : world (relinquish s) = world s.
Proof. unfold relinquish. by destruct (body_ (self s)). Qed.

Lemma body_relinquish s : body_ (self (relinquish s)) = None.
Proof. unfold relinquish. by destruct (body_ (self s)) eqn:E. Qed.

Lemma disposeList_relinquish s :
  disposeList_ (self (relinquish s))
  = disposeList_ (self s) ++ option_list (body_ (self s)).
Proof.
  unfold relinquish. destruct (body_ (self s)); cbn; [done|].
  by rewrite app_nil_r.
Qed.

Lemma CreateBody_fresh (w : b2World F) def :
  m_bodyList w !! (CreateBody w def).1 = None.
Proof. cbn. apply not_elem_of_dom, is_fresh. Qed.

Lemma CreateBody_lookup (w : b2World F) def h :
  m_bodyList (CreateBody w def).2 !! h =
  if decide (h = (CreateBody w def).1) then Some (b2Body_new def)
  else m_bodyList w !! h.
Proof.
  cbn. case_decide as Hh.
  - subst h. apply lookup_insert_eq.
  - by apply lookup_insert_ne.
Qed.

Lemma CreateBody_dom (w : b2World F) def :
  dom (m_bodyList (CreateBody w def).2)
  = {[ (CreateBody w def).1 ]} ∪ dom (m_bodyList w).
Proof. cbn. apply dom_insert_L. Qed.

Lemma world_create_body def s :
  world (create_body def s) = (CreateBody (world s) def).2.
Proof. done. Qed.

Lemma body_create_body def s :
  body_ (self (create_body def s)) = Some (CreateBody (world s) def).1.
Proof. done. Qed.

(** C1. [instantiate] appends the old handle, when there is one, to the
    dispose list; it destroys nothing (every body of the world is still
    there, unchanged); the component then designates a body that did not
    exist before and that is the one built from the given definition; and
    the out-of-sync flag is set. *)
Theorem instantiateBody_effect def s :
  let s' := instantiateBody def s in
  disposeList_ (self s')
    = disposeList_ (self s) ++ option_list (body_ (self s)) /\
  (forall h, is_Some (m_bodyList (world s) !! h) ->
             m_bodyList (world s') !! h = m_bodyList (world s) !! h) /\
  (exists h', body_ (self s') = Some h' /\
              m_bodyList (world s) !! h' = None /\
              m_bodyList (world s') !! h' = Some (b2Body_new def)) /\
  isOutOfSync_ (self s') = true.
Proof.
  cbv zeta. unfold instantiateBody.
  split; [|split; [|split]].
  - cbn. apply disposeList_relinquish.
  - intros h [b Hb]. cbn [mark_out_of_sync world].
    rewrite world_create_body, CreateBody_lookup, world_relinquish.
    case_decide as Hh; [|done].
    subst h. by rewrite CreateBody_fresh in Hb.
  - exists (CreateBody (world s) def).1.
    cbn [mark_out_of_sync world self body_].
    rewrite body_create_body, world_create_body, world_relinquish.
    split; [done|]. split; [apply CreateBody_fresh|].
    rewrite CreateBody_lookup. by case_decide.
  - done.
Qed.

End Instantiate.

(** ** One body at a time *)

Section OneBody.
Context {F : Type} `{Scalar F}.
Implicit Types (s : State F) (def : b2BodyDef F) (h : nat) (base : b2World F).

Lemma size_current s : size (current s) <= 1.
Proof.
  unfold current. destruct (body_ (self s)).
  - rewrite size_singleton. lia.
  - rewrite size_empty. lia.
Qed.

Lemma at_most_current_size base s :
  at_most_current base s -> size (unqueued base s) <= 1.
Proof.
  intros [Hsub _]. etrans; [apply subseteq_size, Hsub | apply size_current].
Qed.

Lemma stable_at_most_current base s : stable base s -> at_most_current base s.
Proof.
  intros (Heq & [h Hh] & Hw0 & Hd). split; [by rewrite Heq|].
  rewrite <- Heq. unfold unqueued. set_solver.
Qed.

Lemma new_stable base def : stable base (new base def).
Proof.
  pose proof (is_fresh (dom (m_bodyList base))) as Hfresh.
  unfold stable, unqueued, current, new. cbn.
  rewrite dom_insert_L. split; [|split; [eauto|]]; set_solver.
Qed.

Lemma instantiateBody_stable base def s :
  stable base s -> stable base (instantiateBody def s).
Proof.
  intros (Heq & [h Hh] & Hw0 & Hd).
  pose proof (is_fresh (dom (m_bodyList (world s)))) as Hfresh.
  revert Heq. unfold stable, unqueued, current, instantiateBody, relinquish.
  rewrite Hh. cbn. rewrite dom_insert_L. intros Heq.
  split; [|split; [eauto|]]; set_solver.
Qed.

Lemma instantiateBody_points_at_most_current base def s s' :
  stable base s -> s' ∈ instantiateBody_points def s -> at_most_current base s'.
Proof.
  intros (Heq & [h Hh] & Hw0 & Hd) Hs'.
  pose proof (is_fresh (dom (m_bodyList (world s)))) as Hfresh.
  revert Heq Hs'.
  unfold at_most_current, unqueued, current, instantiateBody_points, relinquish.
  rewrite Hh. cbn. intros Heq Hs'.
  repeat (apply elem_of_cons in Hs' as [-> | Hs']); [ | | | | by apply elem_of_nil in Hs'];
    cbn; rewrite ?Hh, ?dom_insert_L; set_solver.
Qed.

Lemma instantiateBody_points_last def s :
  last (instantiateBody_points def s) = Some (instantiateBody def s).
Proof.
  unfold instantiateBody_points. rewrite last_app. done.
Qed.

Lemma instantiate_all_points_head defs s :
  head (instantiate_all_points defs s) = Some s.
Proof. by destruct defs. Qed.

Lemma instantiate_all_stable base defs s :
  stable base s -> stable base (instantiate_all defs s).
Proof.
  revert s. induction defs as [|def defs IH]; intros s Hs; [done|].
  cbn. by apply IH, instantiateBody_stable.
Qed.

Lemma instantiate_all_points_at_most_current base defs s s' :
  stable base s -> s' ∈ instantiate_all_points defs s -> at_most_current base s'.
Proof.
  revert s. induction defs as [|def defs IH]; intros s Hs Hs'; cbn in Hs'.
  - apply list_elem_of_singleton in Hs' as ->. by apply stable_at_most_current.
  - apply elem_of_cons in Hs' as [-> | Hs'];
      [by apply stable_at_most_current|].
    apply elem_of_app in Hs' as [Hs' | Hs'].
    + by eapply instantiateBody_points_at_most_current.
    + apply (IH (instantiateBody def s)); [by apply instantiateBody_stable|].
      destruct (instantiate_all_points defs (instantiateBody def s));
        [done | by apply list_elem_of_further].
Qed.

(** C2. At every point during and after a run of [instantiate] calls on a
    component, the live bodies it has created and not queued for disposal
    are among what [body_] designates, hence at most one, and that one is
    live.  Inside each call the guarded block leaves [body_] null and the
    old handle on the dispose list, and only then is the replacement body
    created.  After the run [body_] designates exactly the one body that is
    not queued. *)
Theorem instantiate_one_body_at_a_time base def0 defs s :
  s ∈ instantiate_all_points defs (new base def0) ->
  (unqueued base s ⊆ current s /\
   current s ⊆ dom (m_bodyList (world s)) /\
   size (unqueued base s) <= 1 /\
   size (current s) <= 1) /\
  (forall def,
     body_ (self (relinquish s)) = None /\
     (forall h, body_ (self s) = Some h ->
                h ∈ disposeList_ (self (relinquish s))) /\
     instantiateBody def s = mark_out_of_sync (create_body def (relinquish s)) /\
     last (instantiateBody_points def s) = Some (instantiateBody def s)) /\
  (let s_end := instantiate_all defs (new base def0) in
   exists h, body_ (self s_end) = Some h /\ unqueued base s_end = {[ h ]}).
Proof.
  intros Hs.
  pose proof (instantiate_all_points_at_most_current base defs _ s
                (new_stable base def0) Hs) as Hamc.
  split; [|split].
  - destruct Hamc as [Hu Hc]. repeat split; [done | done | | apply size_current].
    by apply at_most_current_size.
  - intros def. split; [apply body_relinquish|]. split.
    + intros h Hh. rewrite disposeList_relinquish, Hh. cbn.
      apply elem_of_app. right. apply list_elem_of_here.
    + split; [done | apply instantiateBody_points_last].
  - cbv zeta.
    destruct (instantiate_all_stable base defs _ (new_stable base def0))
      as (Heq & [h Hh] & _).
    exists h. split; [done|]. rewrite Heq. unfold current. by rewrite Hh.
Qed.

End OneBody.

Lemma instantiate_one_body_at_a_time_witness :
  let base : b2World Float32.float := mkWorld ∅ in
  let zero := mkb2Vec2 Float32.zero Float32.zero in
  let def0 := mkBodyDef b2_staticBody zero Float32.zero zero (Float32.of_Z 1) in
  let def1 := mkBodyDef b2_dynamicBody zero Float32.zero zero (Float32.of_Z 1) in
  let s := create_body def1 (relinquish (new base def0)) in
  s ∈ instantiate_all_points [def1] (new base def0) /\
  size (unqueued base s) <= 1 /\
  body_ (self (relinquish s)) = None.
Proof.
  intros base zero def0 def1 s.
  assert (Hs : s ∈ instantiate_all_points [def1] (new base def0)).
  { do 3 apply list_elem_of_further. apply list_elem_of_here. }
  split; [exact Hs|].
  pose proof (instantiate_one_body_at_a_time base def0 [def1] s Hs) as T.
  split; [apply T | apply (proj1 (proj2 T) def1)].
Defined.

(** ** warpTo, gravity, forces and impulses *)

Section BodyOps.
Context {F : Type} `{Scalar F} `{PhysicsSystem F} `{b2Math F}.
Implicit Types (s : State F) (b : b2Body F) (h : nat).

Lemma new_valid (w : b2World F) (def : b2BodyDef F) :
  body_ (self (new w def)) = Some (CreateBody w def).1 /\
  m_bodyList (world (new w def)) !! (CreateBody w def).1
    = Some (b2Body_new def).
Proof. split; [done|]. cbn. apply lookup_insert_eq. Qed.

Lemma warpToVec_valid s h b dest :
  body_ (self s) = Some h -> m_bodyList (world s) !! h = Some b ->
  warpToVec dest s
  = Some (store h (SetLinearVelocity (mkb2Vec2 fzero fzero)
                     (SetTransform (convertToB2 dest) (GetAngle b) b)) s).
Proof.
  intros Hh Hb. unfold warpToVec.
  erewrite query_valid by (by eapply deref_valid). cbn.
  erewrite call_valid by eauto. cbn.
  erewrite call_valid; [| | apply lookup_insert_eq | reflexivity]; [|done].
  by rewrite store_store.
Qed.

(** C3. On a component whose [body_] designates a body, [warpTo] puts the
    body at the unit-converted destination and sets its linear velocity to
    the zero vector; [warpTo(x, y)] is [warpToVec] of the vector (x, y). *)
Theorem warpTo_moves_and_stops s h b (x y : F) (dest : Vector2f F) :
  body_ (self s) = Some h -> m_bodyList (world s) !! h = Some b ->
  warpTo x y s = warpToVec (mkVector2f x y) s /\
  exists s' b',
    warpToVec dest s = Some s' /\
    body_ (self s') = Some h /\
    m_bodyList (world s') !! h = Some b' /\
    GetPosition b' = convertToB2 dest /\
    GetLinearVelocity b' = b2Vec2_zero.
Proof.
  intros Hh Hb. split; [done|].
  eexists _, _. split; [by apply warpToVec_valid|].
  split; [done|]. split; [apply lookup_insert_eq|]. done.
Qed.

(** C9. [warpTo] leaves the angle of the body as it was: of the body only
    the position and the linear velocity change, and nothing else does in
    the component or in the other bodies of the world. *)
Theorem warpTo_keeps_angle s h b (dest : Vector2f F) :
  body_ (self s) = Some h -> m_bodyList (world s) !! h = Some b ->
  exists s' b',
    warpToVec dest s = Some s' /\
    m_bodyList (world s') !! h = Some b' /\
    GetAngle b' = GetAngle b /\
    b' = mkBody (m_type b) (convertToB2 dest) (m_sweep_a b) b2Vec2_zero
           (m_gravityScale b) (m_fixtureList b) (m_applied b) /\
    self s' = self s /\
    (forall h', h' <> h ->
       m_bodyList (world s') !! h' = m_bodyList (world s) !! h').
Proof.
  intros Hh Hb.
  eexists _, _. split; [by apply warpToVec_valid|].
  split; [apply lookup_insert_eq|]. split; [done|]. split; [done|].
  split; [done|]. intros h' Hne. by apply store_other.
Qed.

(** C10. The script property [gravity] reads the gravity scale of the body
    as it is stored and writes the given value as it is given: after
    setting it to [g] the stored gravity scale is [g] and the property reads
    [g]; the conversion factor takes no part. *)
Theorem gravity_is_passthrough s h b (g : F) :
  body_ (self s) = Some h -> m_bodyList (world s) !! h = Some b ->
  gravity_get s = Some (m_gravityScale b) /\
  exists s' b',
    gravity_set g s = Some s' /\
    m_bodyList (world s') !! h = Some b' /\
    m_gravityScale b' = g /\
    gravity_get s' = Some g.
Proof.
  intros Hh Hb. split.
  - unfold gravity_get. by erewrite query_valid by (by eapply deref_valid).
  - eexists _, _. unfold gravity_set.
    split; [by erewrite call_valid by eauto|].
    split; [apply lookup_insert_eq|]. split; [done|].
    unfold gravity_get. by erewrite query_valid by (by apply deref_store).
Qed.

End BodyOps.

Section Forces.
Context {F : Type} `{Scalar F} `{PhysicsSystem F} `{b2Math F}.
Implicit Types (s : State F) (b : b2Body F) (h : nat).

Lemma apply_valid s h b (c : b2Applied F) :
  body_ (self s) = Some h -> m_bodyList (world s) !! h = Some b ->
  call (fun b => Some (b2Apply c b)) s = Some (store h (b2Apply c b) s).
Proof. intros Hh Hb. by erewrite call_valid by eauto. Qed.

Lemma GetWorldPoint_valid s h b (p : b2Vec2 F) :
  body_ (self s) = Some h -> m_bodyList (world s) !! h = Some b ->
  query (GetWorldPoint p) s = Some (GetWorldPoint p b).
Proof. intros Hh Hb. by erewrite query_valid by (by eapply deref_valid). Qed.

Lemma apply_at_world_point_valid s h b
    (k : b2Vec2 F -> b2Applied F) (q : b2Vec2 F) :
  body_ (self s) = Some h -> m_bodyList (world s) !! h = Some b ->
  (p ← query (GetWorldPoint q) s; call (fun b => Some (b2Apply (k p) b)) s)
  = Some (store h (b2Apply (k (GetWorldPoint q b)) b) s).
Proof.
  intros Hh Hb. rewrite (GetWorldPoint_valid s h b) by done. cbn.
  by apply apply_valid.
Qed.

Lemma apply_at_world_point_fault s
    (k : b2Vec2 F -> b2Applied F) (q : b2Vec2 F) :
  deref s = None ->
  (p ← query (GetWorldPoint q) s; call (fun b => Some (b2Apply (k p) b)) s)
  = None.
Proof. intros Hd. by rewrite query_fault. Qed.

Lemma warpToVec_fault s (dest : Vector2f F) :
  deref s = None -> warpToVec dest s = None.
Proof. intros Hd. unfold warpToVec. by rewrite query_fault. Qed.

(** An operation that returns normally on every designated body and is a
    fault otherwise returns normally exactly when [body_] designates a
    body. *)
Lemma is_Some_iff_deref s (op : State F -> option (State F)) :
  (forall h b, body_ (self s) = Some h ->
     m_bodyList (world s) !! h = Some b -> is_Some (op s)) ->
  (deref s = None -> op s = None) ->
  is_Some (op s) <-> is_Some (deref s).
Proof.
  intros Hvalid Hfault. destruct (deref s) as [b|] eqn:Hd.
  - destruct (deref_inv _ _ Hd) as (h & Hh & Hb). split; eauto.
  - rewrite Hfault by done. done.
Qed.

Lemma addFixture_is_Some s (fdef : b2FixtureDef F) :
  is_Some (addFixture fdef s) <-> is_Some (deref s) /\ is_Some (shape fdef).
Proof.
  unfold addFixture. destruct (deref s) as [b|] eqn:Hd.
  - destruct (deref_inv _ _ Hd) as (h & Hh & Hb).
    unfold call. rewrite Hh. cbn. rewrite Hb. cbn.
    unfold CreateFixture. destruct (shape fdef) as [sh|]; cbn.
    + split; eauto.
    + split; [intros [? ?]; discriminate | intros [_ [? ?]]; discriminate].
  - rewrite call_fault by done.
    split; [intros [? ?]; discriminate | intros [[? ?] _]; discriminate].
Qed.

(** C6. On a component whose [body_] designates the body [b], every member
    of the force and impulse family returns in a state where the body found
    under [body_] in the world has received exactly one more engine call,
    the one of its kind, with the wake flag [true], the force or impulse
    converted to engine units, and the point converted to engine units (for
    the relative variants: the converted point mapped to world coordinates
    by the body); the component itself is unchanged.  The scalar overloads
    are the vector overloads on the vectors of their arguments. *)
Theorem force_impulse_family_forwards s h b
    (i j x y : F) (v p : Vector2f F) :
  body_ (self s) = Some h -> m_bodyList (world s) !! h = Some b ->
  let received (r : option (State F)) (c : b2Applied F) :=
    exists s' b',
      r = Some s' /\
      body_ (self s') = Some h /\
      m_bodyList (world s') !! h = Some b' /\
      m_applied b' = m_applied b ++ [c] /\
      self s' = self s in
  (received (applyForceToCentreVec v s)
     (ApplyForceToCenter (convertToB2 v) true) /\
   received (applyForceRelVec v p s)
     (ApplyForce (convertToB2 v) (GetWorldPoint (convertToB2 p) b) true) /\
   received (applyForceVec v p s)
     (ApplyForce (convertToB2 v) (convertToB2 p) true) /\
   received (applyImpulseToCentreVec v s)
     (ApplyLinearImpulseToCenter (convertToB2 v) true) /\
   received (applyImpulseRelVec v p s)
     (ApplyLinearImpulse (convertToB2 v)
        (GetWorldPoint (convertToB2 p) b) true) /\
   received (applyImpulseVec v p s)
     (ApplyLinearImpulse (convertToB2 v) (convertToB2 p) true)) /\
  (applyForceToCentre i j s = applyForceToCentreVec (mkVector2f i j) s /\
   applyForceRel i j x y s
     = applyForceRelVec (mkVector2f i j) (mkVector2f x y) s /\
   applyForce i j x y s = applyForceVec (mkVector2f i j) (mkVector2f x y) s /\
   applyImpulseToCentre i j s = applyImpulseToCentreVec (mkVector2f i j) s /\
   applyImpulseRel i j x y s
     = applyImpulseRelVec (mkVector2f i j) (mkVector2f x y) s /\
   applyImpulse i j x y s
     = applyImpulseVec (mkVector2f i j) (mkVector2f x y) s).
Proof.
  intros Hh Hb received.
  assert (Hrec : forall c, received (Some (store h (b2Apply c b) s)) c).
  { intros c. exists (store h (b2Apply c b) s), (b2Apply c b).
    split; [done|]. split; [done|]. split; [apply lookup_insert_eq|].
    split; done. }
  split; [|repeat split].
  unfold applyForceToCentreVec, applyForceRelVec, applyForceVec,
    applyImpulseToCentreVec, applyImpulseRelVec, applyImpulseVec.
  rewrite !(apply_at_world_point_valid s h b) by done.
  rewrite !(apply_valid s h b) by done.
  repeat split; apply Hrec.
Qed.

(** C8. Only [instantiate] looks at whether [body_] is null.  On a null
    [body_] it skips the guarded block and creates a body; [addFixture],
    [warpTo], the [gravity] property and every force and impulse operation
    dereference [body_] as it is, so on a null [body_] they are a null
    dereference.  None of them has another way to fail: each returns
    normally exactly when [body_] designates a body (and, for [addFixture],
    the definition has a shape), and [instantiate] always does. *)
Theorem body_handle_unchecked s
    (fdef : b2FixtureDef F) (def : b2BodyDef F) (g i j x y : F)
    (v p : Vector2f F) :
  (body_ (self s) = None ->
     addFixture fdef s = None /\
     warpTo x y s = None /\ warpToVec v s = None /\
     gravity_get s = None /\ gravity_set g s = None /\
     applyForceToCentre i j s = None /\ applyForceToCentreVec v s = None /\
     applyForceRel i j x y s = None /\ applyForceRelVec v p s = None /\
     applyForce i j x y s = None /\ applyForceVec v p s = None /\
     applyImpulseToCentre i j s = None /\ applyImpulseToCentreVec v s = None /\
     applyImpulseRel i j x y s = None /\ applyImpulseRelVec v p s = None /\
     applyImpulse i j x y s = None /\ applyImpulseVec v p s = None /\
     disposeList_ (self (instantiateBody def s)) = disposeList_ (self s) /\
     is_Some (deref (instantiateBody def s))) /\
  ((is_Some (addFixture fdef s)
      <-> is_Some (deref s) /\ is_Some (shape fdef)) /\
   (is_Some (warpTo x y s) <-> is_Some (deref s)) /\
   (is_Some (warpToVec v s) <-> is_Some (deref s)) /\
   (is_Some (gravity_get s) <-> is_Some (deref s)) /\
   (is_Some (gravity_set g s) <-> is_Some (deref s)) /\
   (is_Some (applyForceToCentre i j s) <-> is_Some (deref s)) /\
   (is_Some (applyForceToCentreVec v s) <-> is_Some (deref s)) /\
   (is_Some (applyForceRel i j x y s) <-> is_Some (deref s)) /\
   (is_Some (applyForceRelVec v p s) <-> is_Some (deref s)) /\
   (is_Some (applyForce i j x y s) <-> is_Some (deref s)) /\
   (is_Some (applyForceVec v p s) <-> is_Some (deref s)) /\
   (is_Some (applyImpulseToCentre i j s) <-> is_Some (deref s)) /\
   (is_Some (applyImpulseToCentreVec v s) <-> is_Some (deref s)) /\
   (is_Some (applyImpulseRel i j x y s) <-> is_Some (deref s)) /\
   (is_Some (applyImpulseRelVec v p s) <-> is_Some (deref s)) /\
   (is_Some (applyImpulse i j x y s) <-> is_Some (deref s)) /\
   (is_Some (applyImpulseVec v p s) <-> is_Some (deref s))).
Proof.
  split.
  - intros Hnull. pose proof (deref_null s Hnull) as Hd.
    repeat match goal with |- _ /\ _ => split end;
      try (by (apply call_fault || apply query_fault
               || apply apply_at_world_point_fault || apply warpToVec_fault)).
    + unfold instantiateBody, relinquish. by rewrite Hnull.
    + unfold instantiateBody, relinquish, deref. rewrite Hnull. cbn.
      rewrite lookup_insert_eq. eauto.
  - split; [apply addFixture_is_Some|].
    repeat match goal with |- _ /\ _ => split end;
      try apply query_is_Some;
      (apply is_Some_iff_deref;
         unfold gravity_set, applyForceToCentre, applyForceToCentreVec,
           applyForceRel, applyForceRelVec, applyForce, applyForceVec,
           applyImpulseToCentre, applyImpulseToCentreVec, applyImpulseRel,
           applyImpulseRelVec, applyImpulse, applyImpulseVec;
         [ intros h b Hh Hb;
           first [ unfold warpTo; erewrite warpToVec_valid by eauto
                 | erewrite (apply_at_world_point_valid s h b) by eauto
                 | erewrite (call_valid _ s h b) by eauto ];
           eauto
         | intros Hd;
           by (apply call_fault || apply apply_at_world_point_fault
               || apply warpToVec_fault) ]).
Qed.

End Forces.

(** ** The operations on sample values *)

Section Samples.
Import Sample.
#[local] Existing Instance physics.
#[local] Existing Instance unrotated.

(** The handle of the body of [fresh_component]. *)
Lemma fresh_component_valid :
  body_ (self fresh_component) = Some (CreateBody emptyWorld dynamicDef).1 /\
  m_bodyList (world fresh_component) !! (CreateBody emptyWorld dynamicDef).1
    = Some (b2Body_new dynamicDef).
Proof. apply new_valid. Qed.

(** With the factor 100, warping to (200, 300) puts the body at (2, 3) with
    no velocity; angle, gravity scale and type are those of the
    definition. *)
Example warpTo_sample :
  warpTo (Float32.of_Z 200) (Float32.of_Z 300) fresh_component ≫= deref
  = Some (mkBody b2_dynamicBody
            (mkb2Vec2 (Float32.of_Z 2) (Float32.of_Z 3)) Float32.zero
            origin (Float32.of_Z 1) [] []).
Proof. vm_compute. reflexivity. Qed.

(** A force of (100, 0) applied at the relative point (100, 100) reaches the
    body at (3, 4) as the force (1, 0) at the world point (4, 5), waking. *)
Example applyForceRel_sample :
  m_applied <$>
    (applyForceRel (Float32.of_Z 100) Float32.zero
       (Float32.of_Z 100) (Float32.of_Z 100) fresh_component ≫= deref)
  = Some [ApplyForce (mkb2Vec2 (Float32.of_Z 1) Float32.zero)
            (mkb2Vec2 (Float32.of_Z 4) (Float32.of_Z 5)) true].
Proof. vm_compute. reflexivity. Qed.

(** On a null [body_], [warpTo] and [addFixture] are faults, and
    [instantiate] queues nothing and yields a component with a body. *)
Example null_component_sample :
  warpTo (Float32.of_Z 200) (Float32.of_Z 300) null_component = None /\
  addFixture boxFixture null_component = None /\
  disposeList_ (self (instantiateBody staticDef null_component)) = [] /\
  deref (instantiateBody staticDef null_component)
    = Some (b2Body_new staticDef).
Proof. vm_compute. done. Qed.

(** After two [instantiate] calls both former bodies are queued, oldest
    first, and are still in the world. *)
Example instantiate_twice_sample :
  let s := instantiate_all [staticDef; dynamicDef] fresh_component in
  body_ (self s) = Some 2 /\
  disposeList_ (self s) = [0; 1] /\
  dom (m_bodyList (world s)) = {[0; 1; 2]} /\
  isOutOfSync_ (self s) = true.
Proof. vm_compute. done. Qed.

End Samples.

(** ** StatSystem *)

Section StatSystemProperties.
Context {F : Type}.
Implicit Types (e : Entity F) (world : list (Entity F)).

Lemma update_entity_both e st mv :
  stats e = Some st -> movement e = Some mv ->
  update_entity e = mkEntity (Some st) (Some (mkMovement (stat_speed st))).
Proof. intros Hs Hm. unfold update_entity. by rewrite Hs, Hm. Qed.

Lemma update_entity_skips e :
  stats e = None \/ movement e = None -> update_entity e = e.
Proof.
  unfold update_entity. intros [Hn | Hn]; rewrite Hn; [done|].
  by destruct (stats e).
Qed.

(** C7. One tick of the stat system keeps the entities and their order.  An
    entity that has both a [Stats] and a [Movement] component gets the speed
    stat copied into its movement component, its stats being kept; an entity
    lacking either component comes out as it went in, so no [Movement]
    component is written for it. *)
Theorem StatSystem_update_copies_or_skips world (dt : Z) (i : nat) e :
  world !! i = Some e ->
  length (update world dt) = length world /\
  exists e',
    update world dt !! i = Some e' /\
    (forall st mv, stats e = Some st -> movement e = Some mv ->
       stats e' = Some st /\
       movement e' = Some (mkMovement (stat_speed st))) /\
    (stats e = None \/ movement e = None -> e' = e).
Proof.
  intros Hi. unfold update. split; [apply length_fmap|].
  exists (update_entity e). split; [by rewrite list_lookup_fmap, Hi|].
  split.
  - intros st mv Hs Hm. by rewrite (update_entity_both e st mv).
  - apply update_entity_skips.
Qed.

End StatSystemProperties.

(** ** The theorems at sample values *)

Section Witnesses.
Import Sample.
#[local] Existing Instance physics.
#[local] Existing Instance unrotated.

Lemma warpTo_moves_and_stops_witness :
  let s := fresh_component in
  let h := (CreateBody emptyWorld dynamicDef).1 in
  let dest := mkVector2f (Float32.of_Z 200) (Float32.of_Z 300) in
  body_ (self s) = Some h /\
  m_bodyList (world s) !! h = Some (b2Body_new dynamicDef) /\
  exists s' b',
    warpToVec dest s = Some s' /\
    body_ (self s') = Some h /\
    m_bodyList (world s') !! h = Some b' /\
    GetPosition b' = convertToB2 dest /\
    GetLinearVelocity b' = b2Vec2_zero.
Proof.
  intros s h dest.
  destruct fresh_component_valid as [Hh Hb].
  split; [exact Hh|]. split; [exact Hb|].
  exact (proj2 (warpTo_moves_and_stops s h (b2Body_new dynamicDef)
                  Float32.zero Float32.zero dest Hh Hb)).
Defined.

Lemma warpTo_keeps_angle_witness :
  let s := fresh_component in
  let h := (CreateBody emptyWorld dynamicDef).1 in
  let dest := mkVector2f (Float32.of_Z 200) (Float32.of_Z 300) in
  body_ (self s) = Some h /\
  m_bodyList (world s) !! h = Some (b2Body_new dynamicDef) /\
  exists s' b',
    warpToVec dest s = Some s' /\
    m_bodyList (world s') !! h = Some b' /\
    GetAngle b' = GetAngle (b2Body_new dynamicDef).
Proof.
  intros s h dest.
  destruct fresh_component_valid as [Hh Hb].
  split; [exact Hh|]. split; [exact Hb|].
  destruct (warpTo_keeps_angle s h (b2Body_new dynamicDef) dest Hh Hb)
    as (s' & b' & Hw & Hl & Ha & _).
  by exists s', b'.
Defined.

Lemma gravity_is_passthrough_witness :
  let s := fresh_component in
  let h := (CreateBody emptyWorld dynamicDef).1 in
  let g := Float32.of_Z 3 in
  body_ (self s) = Some h /\
  m_bodyList (world s) !! h = Some (b2Body_new dynamicDef) /\
  gravity_get s = Some (Float32.of_Z 1) /\
  exists s' b',
    gravity_set g s = Some s' /\
    m_bodyList (world s') !! h = Some b' /\
    m_gravityScale b' = g /\
    gravity_get s' = Some g.
Proof.
  intros s h g.
  destruct fresh_component_valid as [Hh Hb].
  split; [exact Hh|]. split; [exact Hb|].
  exact (gravity_is_passthrough s h (b2Body_new dynamicDef) g Hh Hb).
Defined.

Lemma force_impulse_family_forwards_witness :
  let s := fresh_component in
  let h := (CreateBody emptyWorld dynamicDef).1 in
  let b := b2Body_new dynamicDef in
  let v := mkVector2f (Float32.of_Z 100) Float32.zero in
  let p := mkVector2f (Float32.of_Z 100) (Float32.of_Z 100) in
  body_ (self s) = Some h /\
  m_bodyList (world s) !! h = Some b /\
  exists s' b',
    applyImpulseRelVec v p s = Some s' /\
    body_ (self s') = Some h /\
    m_bodyList (world s') !! h = Some b' /\
    m_applied b'
    = m_applied b ++ [ApplyLinearImpulse (convertToB2 v)
                        (GetWorldPoint (convertToB2 p) b) true] /\
    self s' = self s.
Proof.
  intros s h b v p.
  destruct fresh_component_valid as [Hh Hb].
  split; [exact Hh|]. split; [exact Hb|].
  pose proof (force_impulse_family_forwards s h b
                Float32.zero Float32.zero Float32.zero Float32.zero v p Hh Hb)
    as [(_ & _ & _ & _ & Hrel & _) _].
  exact Hrel.
Defined.

Lemma body_handle_unchecked_witness :
  let s := null_component in
  let v := mkVector2f (Float32.of_Z 100) Float32.zero in
  body_ (self s) = None /\
  addFixture boxFixture s = None /\
  warpToVec v s = None /\
  applyForceVec v v s = None /\
  is_Some (deref (instantiateBody staticDef s)).
Proof.
  intros s v.
  assert (Hnull : body_ (self s) = None) by reflexivity.
  split; [exact Hnull|].
  pose proof (proj1 (body_handle_unchecked s boxFixture staticDef
                       Float32.zero Float32.zero Float32.zero
                       Float32.zero Float32.zero v v) Hnull) as T.
  split; [apply T|]. split; [apply T|]. split; apply T.
Defined.

Lemma StatSystem_update_copies_or_skips_witness :
  let both := mkEntity (Some (mkStats 7%Z)) (Some (mkMovement 0%Z)) in
  let lacking := mkEntity (Some (mkStats 7%Z)) None in
  let world := [both; lacking] in
  world !! 1 = Some lacking /\
  length (update world 16667) = 2 /\
  exists e', update world 16667 !! 1 = Some e' /\ e' = lacking.
Proof.
  intros both lacking world.
  assert (Hi : world !! 1 = Some lacking) by reflexivity.
  split; [exact Hi|].
  destruct (StatSystem_update_copies_or_skips world 16667 1 lacking Hi)
    as (Hlen & e' & He' & _ & Hskip).
  split; [exact Hlen|].
  exists e'. split; [exact He'|]. apply Hskip. by right.
Defined.

End Witnesses.

(** ** Sequences of script calls *)

Section ScriptProperties.
Context {F : Type} `{Scalar F} `{PhysicsSystem F} `{b2Math F}.
Implicit Types (s : State F) (b : b2Body F) (h : nat) (m : Method F).

Lemma deref_instantiateBody (def : b2BodyDef F) s :
  deref (instantiateBody def s) = Some (b2Body_new def).
Proof.
  unfold deref, instantiateBody. cbn. apply lookup_insert_eq.
Qed.

Lemma deref_new (w : b2World F) (def : b2BodyDef F) :
  deref (new w def) = Some (b2Body_new def).
Proof. unfold deref, new. cbn. apply lookup_insert_eq. Qed.

(** What a call other than [instantiate] does when it returns: it replaces
    the body [body_] designates, and nothing else. *)
Lemma invoke_body_call m s s' :
  is_instantiate m = false -> invoke m s = Some s' ->
  exists h b b',
    body_ (self s) = Some h /\ m_bodyList (world s) !! h = Some b /\
    s' = store h b' s.
Proof.
  intros Hm Hinv. destruct (deref s) as [b|] eqn:Hd.
  - destruct (deref_inv _ _ Hd) as (h & Hh & Hb). exists h, b.
    destruct m; try discriminate; cbn in Hinv;
      unfold addFixture, warpTo, gravity_set,
        applyForceToCentre, applyForceToCentreVec,
        applyForceRel, applyForceRelVec, applyForce, applyForceVec,
        applyImpulseToCentre, applyImpulseToCentreVec, applyImpulseRel,
        applyImpulseRelVec, applyImpulse, applyImpulseVec in Hinv;
      first
        [ erewrite warpToVec_valid in Hinv by eauto
        | erewrite (apply_at_world_point_valid s h b) in Hinv by eauto
        | erewrite (call_valid _ s h b) in Hinv by eauto
        | idtac ];
      try (injection Hinv as <-; eauto).
    (* addFixture: the fixture definition decides *)
    unfold call in Hinv. rewrite Hh in Hinv. cbn in Hinv.
    rewrite Hb in Hinv. cbn in Hinv.
    destruct (CreateFixture def b) as [b'|]; [|discriminate].
    injection Hinv as <-. eauto.
  - exfalso.
    destruct m; try discriminate; cbn in Hinv;
      unfold addFixture, warpTo, gravity_set,
        applyForceToCentre, applyForceToCentreVec,
        applyForceRel, applyForceRelVec, applyForce, applyForceVec,
        applyImpulseToCentre, applyImpulseToCentreVec, applyImpulseRel,
        applyImpulseRelVec, applyImpulse, applyImpulseVec in Hinv;
      first
        [ rewrite warpToVec_fault in Hinv by done
        | rewrite apply_at_world_point_fault in Hinv by done
        | rewrite call_fault in Hinv by done ];
      discriminate.
Qed.

Lemma dom_store s h b b' :
  m_bodyList (world s) !! h = Some b ->
  dom (m_bodyList (world (store h b' s))) = dom (m_bodyList (world s)).
Proof.
  intros Hb. cbn. rewrite dom_insert_L.
  apply elem_of_dom_2 in Hb. set_solver.
Qed.

Lemma invoke_instantiate m s s' :
  is_instantiate m = true -> invoke m s = Some s' ->
  exists def, s' = instantiateBody def s.
Proof. destruct m; try discriminate. cbn. intros _ [= <-]. eauto. Qed.

(** Only [instantiate] changes the component.  Every other call leaves the
    members of the component as they were (the out-of-sync flag and the
    cached transform included, also for [warpTo]), creates and destroys no
    body, and touches no body but the one [body_] designates. *)
Theorem only_instantiate_changes_component m s s' :
  is_instantiate m = false -> invoke m s = Some s' ->
  self s' = self s /\
  dom (m_bodyList (world s')) = dom (m_bodyList (world s)) /\
  (forall h, body_ (self s) <> Some h ->
     m_bodyList (world s') !! h = m_bodyList (world s) !! h).
Proof.
  intros Hm Hinv.
  destruct (invoke_body_call m s s' Hm Hinv) as (h & b & b' & Hh & Hb & ->).
  split; [done|]. split; [by eapply dom_store|].
  intros h' Hne. apply store_other. congruence.
Qed.

End ScriptProperties.

Section ScriptRuns.
Context {F : Type} `{Scalar F} `{PhysicsSystem F} `{b2Math F}.
Implicit Types (s : State F) (b : b2Body F) (h : nat) (m : Method F)
  (ms : list (Method F)).

Lemma invoke_valid m s :
  is_Some (deref s) -> has_shape m = true ->
  exists s', invoke m s = Some s' /\ is_Some (deref s').
Proof.
  intros Hd Hm.
  destruct (is_instantiate m) eqn:Hi.
  - destruct m; try discriminate. cbn.
    eexists. split; [done|]. rewrite deref_instantiateBody. eauto.
  - destruct Hd as [b Hd]. destruct (deref_inv _ _ Hd) as (h & Hh & Hb).
    assert (Hsome : exists b', invoke m s = Some (store h b' s)).
    { destruct m; try discriminate; cbn;
        unfold addFixture, warpTo, gravity_set,
          applyForceToCentre, applyForceToCentreVec,
          applyForceRel, applyForceRelVec, applyForce, applyForceVec,
          applyImpulseToCentre, applyImpulseToCentreVec, applyImpulseRel,
          applyImpulseRelVec, applyImpulse, applyImpulseVec;
        first
          [ erewrite warpToVec_valid by eauto
          | erewrite (apply_at_world_point_valid s h b) by eauto
          | erewrite (call_valid _ s h b) by eauto
          | idtac ];
        eauto.
      (* addFixture: the definition has a shape *)
      cbn in Hm. apply bool_decide_eq_true in Hm as [sh Hsh].
      erewrite (call_valid _ s h b); [eauto | done | done |].
      unfold CreateFixture. by rewrite Hsh. }
    destruct Hsome as [b' Hs']. eexists. split; [done|].
    rewrite deref_store by done. eauto.
Qed.

(** A script never faults on a component whose [body_] designates a body,
    as long as the fixture definitions it passes have a shape: every call
    returns and leaves [body_] designating a body.  A constructed component
    and a component after [instantiate] are in that case. *)
Theorem scripts_never_fault ms s :
  is_Some (deref s) -> Forall (fun m => has_shape m = true) ms ->
  exists s', run ms s = Some s' /\ is_Some (deref s').
Proof.
  revert s. induction ms as [|m ms IH]; intros s Hd Hms.
  - exists s. done.
  - apply Forall_cons in Hms as [Hm Hms].
    destruct (invoke_valid m s Hd Hm) as (s1 & Hs1 & Hd1).
    destruct (IH s1 Hd1 Hms) as (s' & Hs' & Hd').
    exists s'. cbn. rewrite Hs1. done.
Qed.

Lemma new_handles_in_order (w : b2World F) (def : b2BodyDef F) :
  handles_in_order (new w def).
Proof.
  unfold handles_in_order, new. cbn. split; [|split].
  - eexists. split; [done|]. rewrite dom_insert_L.
    split; [set_solver | apply not_elem_of_nil].
  - constructor.
  - intros h Hh. by apply not_elem_of_nil in Hh.
Qed.

Lemma instantiateBody_handles_in_order (def : b2BodyDef F) s :
  handles_in_order s -> handles_in_order (instantiateBody def s).
Proof.
  intros ((h & Hh & Hlive & Hnq) & Hnd & Hq).
  pose proof (is_fresh (dom (m_bodyList (world s)))) as Hfresh.
  unfold handles_in_order, instantiateBody, relinquish. rewrite Hh. cbn.
  rewrite dom_insert_L. split; [|split].
  - eexists. split; [done|]. split; [set_solver|].
    intros [Hin | Hin]%elem_of_app.
    + apply Hq in Hin. done.
    + apply list_elem_of_singleton in Hin. rewrite Hin in Hfresh. done.
  - apply NoDup_app. split; [done|]. split; [|apply NoDup_singleton].
    intros x Hx Hx'. apply list_elem_of_singleton in Hx'. by subst x.
  - intros x [Hin | Hin]%elem_of_app.
    + apply Hq in Hin. set_solver.
    + apply list_elem_of_singleton in Hin. subst x. set_solver.
Qed.

Lemma invoke_handles_in_order m s s' :
  handles_in_order s -> invoke m s = Some s' -> handles_in_order s'.
Proof.
  intros Hs Hinv. destruct (is_instantiate m) eqn:Hi.
  - destruct (invoke_instantiate m s s' Hi Hinv) as [def ->].
    by apply instantiateBody_handles_in_order.
  - destruct (invoke_body_call m s s' Hi Hinv) as (h & b & b' & Hh & Hb & ->).
    unfold handles_in_order. rewrite store_self, (dom_store s h b b' Hb).
    done.
Qed.

(** Through any script on a constructed component the dispose list holds
    each replaced body once, every queued body is still in the world, and
    the body [body_] designates is live and never among the queued ones: a
    flush of the list destroys each replaced body once and never the body in
    use. *)
Theorem dispose_list_in_order ms (w : b2World F) (def : b2BodyDef F) s' :
  run ms (new w def) = Some s' ->
  (exists h, body_ (self s') = Some h /\
             h ∈ dom (m_bodyList (world s')) /\
             h ∉ disposeList_ (self s')) /\
  NoDup (disposeList_ (self s')) /\
  (forall h, h ∈ disposeList_ (self s') -> h ∈ dom (m_bodyList (world s'))).
Proof.
  intros Hrun. change (handles_in_order s').
  pose proof (new_handles_in_order w def) as Hs.
  revert Hrun Hs. generalize (new w def). clear w def.
  induction ms as [|m ms IH]; intros s Hrun Hs.
  - cbn in Hrun. by injection Hrun as <-.
  - cbn in Hrun. destruct (invoke m s) as [s1|] eqn:Hinv; [|discriminate].
    cbn in Hrun. eapply IH; [done|]. by eapply invoke_handles_in_order.
Qed.

(** Bodies accumulate: a script that returns has queued one handle per
    [instantiate] call in it and has grown the world by as many bodies; no
    call removes a body. *)
Theorem instantiate_calls_counted ms s s' :
  is_Some (body_ (self s)) -> run ms s = Some s' ->
  length (disposeList_ (self s'))
    = length (disposeList_ (self s)) + length (filter is_instantiate ms) /\
  size (dom (m_bodyList (world s')))
    = size (dom (m_bodyList (world s))) + length (filter is_instantiate ms) /\
  dom (m_bodyList (world s)) ⊆ dom (m_bodyList (world s')).
Proof.
  revert s. induction ms as [|m ms IH]; intros s Hbody Hrun.
  - cbn in Hrun. injection Hrun as <-. cbn. split; [lia|]. split; [lia|done].
  - cbn in Hrun. destruct (invoke m s) as [s1|] eqn:Hinv; [|discriminate].
    cbn in Hrun. destruct (is_instantiate m) eqn:Hi.
    + destruct (invoke_instantiate m s s1 Hi Hinv) as [def ->].
      destruct Hbody as [h Hh].
      assert (Hbody' : is_Some (body_ (self (instantiateBody def s)))).
      { cbn. eauto. }
      destruct (IH _ Hbody' Hrun) as (Hlen & Hsize & Hsub).
      rewrite Hlen, Hsize. rewrite filter_cons_True by by rewrite Hi.
      pose proof (is_fresh (dom (m_bodyList (world s)))) as Hfresh.
      revert Hsub.
      unfold instantiateBody, relinquish. rewrite Hh. cbn.
      rewrite dom_insert_L, length_app. cbn. intros Hsub.
      rewrite size_union by set_solver. rewrite size_singleton.
      split; [lia|]. split; [lia|set_solver].
    + destruct (invoke_body_call m s s1 Hi Hinv)
        as (h & b & b' & Hh & Hb & ->).
      assert (Hbody' : is_Some (body_ (self (store h b' s)))).
      { by rewrite store_self. }
      destruct (IH (store h b' s) Hbody' Hrun) as (Hlen & Hsize & Hsub).
      rewrite (dom_store s h b b' Hb) in Hsize, Hsub.
      rewrite filter_cons_False by (rewrite Hi; exact id).
      done.
Qed.

End ScriptRuns.

(** ** How the operations compose *)

Section Composition.
Context {F : Type} `{Scalar F} `{PhysicsSystem F} `{b2Math F}.
Implicit Types (s : State F) (b : b2Body F) (h : nat).

Lemma warpToVec_inv s s' (dest : Vector2f F) :
  warpToVec dest s = Some s' ->
  exists h b, body_ (self s) = Some h /\ m_bodyList (world s) !! h = Some b.
Proof.
  intros Hw. destruct (deref s) as [b|] eqn:Hd.
  - destruct (deref_inv _ _ Hd) as (h & Hh & Hb). eauto.
  - by rewrite warpToVec_fault in Hw.
Qed.

(** The last warp wins: warping to [d2] after a warp to [d1] leaves the
    program in the state a single warp to [d2] gives, so warping twice to
    the same place is warping once. *)
Theorem warpTo_last_wins s s1 (d1 d2 : Vector2f F) :
  warpToVec d1 s = Some s1 ->
  warpToVec d2 s1 = warpToVec d2 s /\ warpToVec d1 s1 = Some s1.
Proof.
  intros Hw. destruct (warpToVec_inv s s1 d1 Hw) as (h & b & Hh & Hb).
  assert (Hlast : forall d, warpToVec d s1 = warpToVec d s).
  { intros d. rewrite (warpToVec_valid s h b) in Hw by done.
    injection Hw as <-.
    rewrite (warpToVec_valid s h b) by done.
    erewrite warpToVec_valid; [| by rewrite store_self | apply lookup_insert_eq].
    by rewrite store_store. }
  split; [apply Hlast|]. by rewrite Hlast.
Qed.

Lemma call_inv (f : b2Body F -> option (b2Body F)) s s' :
  call f s = Some s' ->
  exists h b b',
    body_ (self s) = Some h /\ m_bodyList (world s) !! h = Some b /\
    f b = Some b' /\ s' = store h b' s.
Proof.
  unfold call. intros Hc.
  destruct (body_ (self s)) as [h|] eqn:Hh; [|discriminate]. cbn in Hc.
  destruct (m_bodyList (world s) !! h) as [b|] eqn:Hb; [|discriminate].
  cbn in Hc.
  destruct (f b) as [b'|] eqn:Hf; [|discriminate]. cbn in Hc.
  injection Hc as <-. exists h, b, b'. repeat split; assumption.
Qed.

(** What [instantiate] does with the body it replaces. *)
Lemma instantiateBody_old_body (def : b2BodyDef F) s h b :
  body_ (self s) = Some h -> m_bodyList (world s) !! h = Some b ->
  m_bodyList (world (instantiateBody def s)) !! h = Some b /\
  h ∈ disposeList_ (self (instantiateBody def s)) /\
  body_ (self (instantiateBody def s)) <> Some h.
Proof.
  intros Hh Hb.
  pose proof (is_fresh (dom (m_bodyList (world s)))) as Hfresh.
  assert (Hne : fresh (dom (m_bodyList (world s))) <> h).
  { intros Heq. apply Hfresh. rewrite Heq. by eapply elem_of_dom_2. }
  unfold instantiateBody, relinquish. rewrite Hh. cbn.
  split; [by rewrite lookup_insert_ne|]. split.
  - apply elem_of_app. right. apply list_elem_of_here.
  - intros [= Heq]. done.
Qed.

(** [instantiate] starts the body over.  After an [addFixture] and a
    write of [gravity], an [instantiate] leaves [body_] on a body that has no
    fixture and the gravity scale of the definition; the body configured
    before is queued and still carries the fixture in the world. *)
Theorem instantiate_discards_configuration s s1 s2 h
    (fdef : b2FixtureDef F) (g : F) (def : b2BodyDef F) :
  body_ (self s) = Some h ->
  addFixture fdef s = Some s1 -> gravity_set g s1 = Some s2 ->
  let s3 := instantiateBody def s2 in
  (exists b3, deref s3 = Some b3 /\
              m_fixtureList b3 = [] /\
              gravity_get s3 = Some (gravityScale def)) /\
  (exists b_old, m_bodyList (world s3) !! h = Some b_old /\
                 fdef ∈ m_fixtureList b_old /\
                 m_gravityScale b_old = g) /\
  h ∈ disposeList_ (self s3) /\
  body_ (self s3) <> Some h.
Proof.
  intros Hh Hadd Hgrav s3. subst s3.
  apply call_inv in Hadd as (h1 & b & b1 & Hh1 & Hb & Hfix & ->).
  assert (h1 = h) as -> by congruence.
  apply call_inv in Hgrav as (h2 & b1' & b2 & Hh2 & Hb1 & [= <-] & ->).
  rewrite store_self in Hh2. assert (h2 = h) as -> by congruence.
  cbn in Hb1. rewrite lookup_insert_eq in Hb1. injection Hb1 as <-.
  rewrite store_store.
  unfold CreateFixture in Hfix.
  destruct (shape fdef) as [sh|]; [|discriminate]. injection Hfix as <-.
  split.
  - exists (b2Body_new def). split; [apply deref_instantiateBody|].
    split; [done|]. unfold gravity_get.
    by rewrite (query_valid _ _ _ (deref_instantiateBody def _)).
  - match goal with
    | |- context [instantiateBody def (store h ?b2 s)] =>
        assert (Hb2 : m_bodyList (world (store h b2 s)) !! h = Some b2)
          by apply lookup_insert_eq;
        destruct (instantiateBody_old_body def (store h b2 s) h b2 Hh Hb2)
          as (Hold & Hq & Hcur)
    end.
    split; [|done]. eexists. split; [exact Hold|].
    split; [|done]. cbn. apply list_elem_of_here.
Qed.

Lemma new_keeps_bodies (w : b2World F) (d : b2BodyDef F) h b :
  m_bodyList w !! h = Some b ->
  m_bodyList (world (new w d)) !! h = Some b /\
  body_ (self (new w d)) <> Some h.
Proof.
  intros Hb.
  pose proof (is_fresh (dom (m_bodyList w))) as Hfresh.
  assert (Hne : fresh (dom (m_bodyList w)) <> h).
  { intros Heq. apply Hfresh. rewrite Heq. by eapply elem_of_dom_2. }
  unfold new. cbn. split; [by rewrite lookup_insert_ne|].
  intros [= Heq]. done.
Qed.

Lemma instantiateBody_keeps_bodies (def : b2BodyDef F) s h b :
  m_bodyList (world s) !! h = Some b ->
  m_bodyList (world (instantiateBody def s)) !! h = Some b.
Proof.
  intros Hb.
  pose proof (is_fresh (dom (m_bodyList (world s)))) as Hfresh.
  assert (Hne : fresh (dom (m_bodyList (world s))) <> h).
  { intros Heq. apply Hfresh. rewrite Heq. by eapply elem_of_dom_2. }
  unfold instantiateBody. cbn. rewrite world_relinquish.
  by rewrite lookup_insert_ne.
Qed.

Lemma invoke_keeps_other_bodies (m : Method F) s s' h b :
  invoke m s = Some s' -> body_ (self s) <> Some h ->
  m_bodyList (world s) !! h = Some b ->
  m_bodyList (world s') !! h = Some b.
Proof.
  intros Hinv Hne Hb. destruct (is_instantiate m) eqn:Hi.
  - destruct (invoke_instantiate m s s' Hi Hinv) as [def ->].
    by apply instantiateBody_keeps_bodies.
  - destruct (invoke_body_call m s s' Hi Hinv)
      as (h' & b0 & b' & Hh & Hb0 & ->).
    rewrite store_other; [done|]. congruence.
Qed.

(** Two components constructed in the same world never share a body, and a
    call on the second one leaves the body of the first as it was. *)
Theorem components_do_not_share_bodies (w : b2World F)
    (d1 d2 : b2BodyDef F) (m : Method F) s2' :
  let s1 := new w d1 in
  let s2 := new (world s1) d2 in
  invoke m s2 = Some s2' ->
  body_ (self s1) <> body_ (self s2) /\
  (forall h1, body_ (self s1) = Some h1 ->
     m_bodyList (world s2) !! h1 = Some (b2Body_new d1) /\
     m_bodyList (world s2') !! h1 = Some (b2Body_new d1)).
Proof.
  intros s1 s2 Hinv.
  destruct (new_valid w d1) as [Hh1 Hb1].
  destruct (new_keeps_bodies (world s1) d2 _ _ Hb1) as [Hb1' Hne].
  fold s1 in Hh1. fold s2 in Hb1', Hne.
  split; [congruence|].
  intros h1 Hh. assert (h1 = (CreateBody w d1).1) as -> by congruence.
  split; [done|]. by eapply invoke_keeps_other_bodies.
Qed.

End Composition.

(** ** The fixture properties on binary32 *)

Section FixturePropertiesBinary32.
Context (P : PhysicsSystem Float32.float).
Implicit Types (fd : b2FixtureDef Float32.float) (v : Float32.float).

Lemma div_mul_special (k v : Float32.float) :
  Float32.is_finite_nonzero k = true ->
  Float32.is_finite_nonzero v = false ->
  Float32.mul (Float32.div v k) k = v.
Proof.
  destruct k as [sk| sk| |sk mk ek]; try discriminate. intros _.
  destruct v as [sv|sv| |sv mv ev]; try discriminate; intros _; cbn;
    try reflexivity; by destruct sv, sk.
Qed.

Lemma div_mul_degenerate (k v : Float32.float) :
  Float32.is_finite_nonzero k = false ->
  Float32.mul (Float32.div v k) k = S754_nan.
Proof.
  destruct k as [sk| sk| |sk mk ek]; try discriminate; intros _;
    by destruct v as [sv|sv| |sv mv ev].
Qed.

(** On binary32, with a finite non-zero factor, the values that are not
    finite non-zero numbers come back from the round trip through a setter
    and its getter: +0 reads back as +0 and -0 as -0, each infinity as the
    infinity of the same sign, and NaN as NaN ([SpecFloat] has one NaN: which
    NaN comes back is not modelled). *)
Theorem fixture_properties_exact_on_special_values fd v :
  Float32.is_finite_nonzero scale = true ->
  Float32.is_finite_nonzero v = false ->
  density_get (density_set fd v) = v /\
  friction_get (friction_set fd v) = v /\
  restitution_get (restitution_set fd v) = v.
Proof.
  intros Hk Hv. repeat split; by apply div_mul_special.
Qed.

(** Neither a setter nor a getter looks at the factor: with a factor that
    is zero, infinite or NaN, a property reads back NaN whatever it was set
    to. *)
Theorem fixture_properties_degenerate_factor fd v :
  Float32.is_finite_nonzero scale = false ->
  density_get (density_set fd v) = S754_nan /\
  friction_get (friction_set fd v) = S754_nan /\
  restitution_get (restitution_set fd v) = S754_nan.
Proof.
  intros Hk. repeat split; by apply div_mul_degenerate.
Qed.

End FixturePropertiesBinary32.

(** ** Rounding on binary32

    What [SpecFloat]'s division and multiplication compute, in terms of the
    rational values of the floats: a finite result lies within half a unit
    in the last place of the exact quotient or product. *)

Section Binary32Rounding.
Import Float32.
Local Open Scope Q_scope.

Lemma pow2_pos e : 0 < pow2 e.
Proof. apply Qpower_0_lt. reflexivity. Qed.

Lemma pow2_add a b : pow2 (a + b) == pow2 a * pow2 b.
Proof. apply Qpower_plus. discriminate. Qed.

Lemma pow2_le a b : (a <= b)%Z -> pow2 a <= pow2 b.
Proof. intros Hab. apply Qpower_le_compat_l; [done|]. discriminate. Qed.

Lemma pow2_Z n : (0 <= n)%Z -> inject_Z (2 ^ n) == pow2 n.
Proof. intros Hn. unfold pow2. by rewrite Zpower_Qpower. Qed.

Lemma in_place_proper x y mrs : x == y -> in_place x mrs -> in_place y mrs.
Proof.
  intros Hxy [Hm Hx]. split; [done|].
  destruct (shr_r mrs), (shr_s mrs); lra.
Qed.

Lemma inject_Z_xO p : inject_Z (Z.pos p~0) == 2 * inject_Z (Z.pos p).
Proof.
  change (Z.pos p~0) with (2 * Z.pos p)%Z.
  rewrite inject_Z_mult. reflexivity.
Qed.

Lemma inject_Z_xI p : inject_Z (Z.pos p~1) == 2 * inject_Z (Z.pos p) + 1.
Proof.
  change (Z.pos p~1) with (2 * Z.pos p + 1)%Z.
  rewrite inject_Z_plus, inject_Z_mult. reflexivity.
Qed.

Lemma shr_1_in_place x mrs :
  in_place x mrs -> in_place (x * (1 # 2)) (shr_1 mrs).
Proof.
  destruct mrs as [m r s]. unfold in_place. cbn [shr_m shr_r shr_s].
  intros [Hm Hx].
  destruct m as [|p|p]; [| |lia].
  - change (inject_Z 0) with 0 in Hx.
    destruct r, s; cbn [shr_1 shr_m shr_r shr_s orb]; (split; [lia|]);
        change (inject_Z 0) with 0; change (inject_Z 1) with 1 in *;
        repeat match goal with H : _ /\ _ |- _ => destruct H end;
        try split; lra.
  - destruct p as [p|p|].
    + pose proof (inject_Z_xI p) as E.
      destruct r, s; cbn [shr_1 shr_m shr_r shr_s orb]; (split; [lia|]);
        change (inject_Z 0) with 0; change (inject_Z 1) with 1 in *;
        repeat match goal with H : _ /\ _ |- _ => destruct H end;
        try split; lra.
    + pose proof (inject_Z_xO p) as E.
      destruct r, s; cbn [shr_1 shr_m shr_r shr_s orb]; (split; [lia|]);
        change (inject_Z 0) with 0; change (inject_Z 1) with 1 in *;
        repeat match goal with H : _ /\ _ |- _ => destruct H end;
        try split; lra.
    + destruct r, s; cbn [shr_1 shr_m shr_r shr_s orb]; (split; [lia|]);
        change (inject_Z 0) with 0; change (inject_Z 1) with 1 in *;
        repeat match goal with H : _ /\ _ |- _ => destruct H end;
        try split; lra.
Qed.

Lemma iter_shr_1_in_place p x mrs :
  in_place x mrs -> in_place (x * pow2 (- Z.pos p)) (SpecFloat.iter_pos shr_1 p mrs).
Proof.
  revert x mrs. induction p as [p IH|p IH|]; intros x mrs Hx; cbn [SpecFloat.iter_pos].
  - apply (in_place_proper (x * (1 # 2) * pow2 (- Z.pos p) * pow2 (- Z.pos p))).
    + replace (- Z.pos p~1)%Z with (-1 + (- Z.pos p + - Z.pos p))%Z by lia.
      rewrite !pow2_add. change (pow2 (-1)) with (1 # 2). ring.
    + apply IH, IH. by apply shr_1_in_place.
  - apply (in_place_proper (x * pow2 (- Z.pos p) * pow2 (- Z.pos p))).
    + replace (- Z.pos p~0)%Z with (- Z.pos p + - Z.pos p)%Z by lia.
      rewrite pow2_add. ring.
    + by apply IH, IH.
  - apply (in_place_proper (x * (1 # 2))); [|by apply shr_1_in_place].
    change (pow2 (-1)) with (1 # 2). reflexivity.
Qed.

Lemma shr_in_place x mrs e n mrs' e' :
  in_place x mrs -> shr mrs e n = (mrs', e') ->
  in_place (x * pow2 (e - e')) mrs' /\
  ((n <= 0)%Z /\ e' = e \/ (0 < n)%Z /\ e' = (e + n)%Z).
Proof.
  intros Hx Hshr. destruct n as [|p|p]; cbn in Hshr;
    injection Hshr as <- <-.
  - split; [|left; split; lia]. apply (in_place_proper x); [|done].
    rewrite Z.sub_diag. change (pow2 0) with 1. ring.
  - split; [|right; split; lia].
    replace (e - (e + Z.pos p))%Z with (- Z.pos p)%Z by lia.
    by apply iter_shr_1_in_place.
  - split; [|left; split; lia]. apply (in_place_proper x); [|done].
    rewrite Z.sub_diag. change (pow2 0) with 1. ring.
Qed.

Lemma round_nearest_even_close x mrs :
  in_place x mrs ->
  let m := round_nearest_even (shr_m mrs) (loc_of_shr_record mrs) in
  (0 <= m)%Z /\ (shr_m mrs <= m <= shr_m mrs + 1)%Z /\
  x - (1 # 2) <= inject_Z m /\ inject_Z m <= x + (1 # 2).
Proof.
  destruct mrs as [m r s]. unfold in_place. cbn [shr_m shr_r shr_s].
  intros [Hm Hx].
  pose proof (inject_Z_plus m 1) as E. change (inject_Z 1) with 1 in E.
  destruct r, s; cbn [loc_of_shr_record round_nearest_even shr_m];
    try destruct (Z.even m); cbv zeta;
    repeat match goal with H : _ /\ _ |- _ => destruct H end;
    (split; [lia|]); (split; [lia|]); rewrite ?E; split; lra.
Qed.

Lemma digits2_pos_spec p :
  (2 ^ (Z.pos (digits2_pos p) - 1) <= Z.pos p < 2 ^ Z.pos (digits2_pos p))%Z.
Proof.
  induction p as [p IH|p IH|]; cbn [digits2_pos].
  - rewrite Pos2Z.inj_succ.
    replace (Z.succ (Z.pos (digits2_pos p)) - 1)%Z
      with (Z.succ (Z.pos (digits2_pos p) - 1))%Z by lia.
    rewrite !Z.pow_succ_r by lia. lia.
  - rewrite Pos2Z.inj_succ.
    replace (Z.succ (Z.pos (digits2_pos p)) - 1)%Z
      with (Z.succ (Z.pos (digits2_pos p) - 1))%Z by lia.
    rewrite !Z.pow_succ_r by lia. lia.
  - cbn. lia.
Qed.

Lemma Zdigits2_upper m : (0 <= m)%Z -> (m < 2 ^ Zdigits2 m)%Z /\ (0 <= Zdigits2 m)%Z.
Proof.
  intros Hm. destruct m as [|p|p]; [cbn; lia| |lia].
  cbn [Zdigits2]. pose proof (digits2_pos_spec p). lia.
Qed.

Lemma Zdigits2_small m :
  (0 <= m <= 2 ^ 24)%Z ->
  (Zdigits2 m <= 25)%Z /\ (Zdigits2 m = 25%Z -> m = (2 ^ 24)%Z).
Proof.
  intros Hm. destruct m as [|p|p]; [cbn; lia| |lia].
  cbn [Zdigits2]. pose proof (digits2_pos_spec p) as [Hlo Hhi].
  assert (Hd : (Z.pos (digits2_pos p) - 1 <= 24)%Z).
  { apply (Z.pow_le_mono_r_iff 2); lia. }
  split; [lia|]. intros Heq. rewrite Heq in Hlo. cbn in Hlo. lia.
Qed.

Lemma in_place_bounds x mrs :
  in_place x mrs -> inject_Z (shr_m mrs) <= x /\ x < inject_Z (shr_m mrs) + 1.
Proof.
  unfold in_place. intros [_ Hx].
  destruct (shr_r mrs), (shr_s mrs);
    repeat match goal with H : _ /\ _ |- _ => destruct H end; split; lra.
Qed.

Lemma in_place_of_loc_Exact m :
  (0 <= m)%Z -> in_place (inject_Z m) (shr_record_of_loc m loc_Exact).
Proof. intros Hm. split; [done|]. cbn. reflexivity. Qed.

(** The first shift of [binary_round_aux] on binary32: the mantissa comes
    out below [2 ^ 24] at an exponent not below the smallest one. *)
Lemma shr_fexp_in_place x mx ex lx mrs e :
  in_place x (shr_record_of_loc mx lx) ->
  shr_fexp 24 128 mx ex lx = (mrs, e) ->
  in_place (x * pow2 (ex - e)) mrs /\
  (ex <= e)%Z /\ (-149 <= e)%Z /\
  (shr_m mrs < 2 ^ 24)%Z.
Proof.
  intros Hx Hshr. unfold shr_fexp in Hshr.
  destruct (shr_in_place _ _ _ _ _ _ Hx Hshr) as [Hx' Hn].
  assert (Hmx : (0 <= mx)%Z).
  { destruct Hx as [Hm _]. destruct lx as [|[]]; exact Hm. }
  assert (Hxm : x < inject_Z mx + 1).
  { apply in_place_bounds in Hx as [_ Hx]. destruct lx as [|[]]; exact Hx. }
  destruct (Zdigits2_upper mx Hmx) as [Hd Hd0].
  assert (He : (fexp 24 128 (Zdigits2 mx + ex) <= e)%Z /\ (ex <= e)%Z).
  { unfold fexp, emin in *. lia. }
  destruct He as [Hfe Hex].
  assert (Hemin : (-149 <= e)%Z) by (unfold fexp, emin in Hfe; lia).
  split; [done|]. split; [done|]. split; [done|].
  apply in_place_bounds in Hx' as [Hlo _].
  rewrite Zlt_Qlt. rewrite pow2_Z by lia.
  eapply Qle_lt_trans; [exact Hlo|].
  assert (Hx2 : x <= pow2 (Zdigits2 mx)).
  { rewrite <- pow2_Z by done.
    apply Qle_trans with (inject_Z (mx + 1)).
    - rewrite inject_Z_plus. change (inject_Z 1) with 1. lra.
    - rewrite <- Zle_Qle. lia. }
  assert (Hp : pow2 (Zdigits2 mx) * pow2 (ex - e) <= pow2 24).
  { rewrite <- pow2_add. apply pow2_le. unfold fexp in Hfe. lia. }
  pose proof (pow2_pos (ex - e)) as Hpos.
  (* x is strictly below the next integer, so the product is strictly
     below 2^24 unless x = 2^digits, which it is not *)
  destruct (Qlt_le_dec x (pow2 (Zdigits2 mx))) as [Hlt|Hge].
  - eapply Qlt_le_trans; [|exact Hp].
    apply Qmult_lt_compat_r; done.
  - exfalso. assert (x == pow2 (Zdigits2 mx)) as Heq by lra.
    rewrite <- pow2_Z in Heq by done.
    assert (inject_Z (2 ^ Zdigits2 mx) < inject_Z (mx + 1)) as Hc.
    { rewrite inject_Z_plus. change (inject_Z 1) with 1. lra. }
    rewrite <- Zlt_Qlt in Hc. lia.
Qed.

(** The second shift of [binary_round_aux]: on a rounded mantissa it loses
    nothing. *)
Lemma shr_fexp_rounded m1 e1 mrs e :
  (0 <= m1 <= 2 ^ 24)%Z -> (-149 <= e1)%Z ->
  shr_fexp 24 128 m1 e1 loc_Exact = (mrs, e) ->
  (e1 <= e)%Z /\ (0 <= shr_m mrs)%Z /\
  inject_Z (shr_m mrs) * pow2 e == inject_Z m1 * pow2 e1.
Proof.
  intros Hm1 He1 Hshr. unfold shr_fexp in Hshr.
  destruct (Zdigits2_small m1 Hm1) as [Hd Hd25].
  destruct (Zdigits2_upper m1 ltac:(lia)) as [_ Hd0].
  destruct (fexp 24 128 (Zdigits2 m1 + e1) - e1)%Z as [|p|p] eqn:Hn;
    cbn [shr shr_record_of_loc] in Hshr.
  - injection Hshr as <- <-. cbn. split; [lia|]. split; [lia|reflexivity].
  - assert (p = 1%positive) as ->.
    { unfold fexp, emin in Hn. lia. }
    assert (m1 = 16777216%Z) as ->.
    { apply Hd25. unfold fexp, emin in Hn. lia. }
    injection Hshr as <- <-. cbn [shr_1 SpecFloat.iter_pos shr_m].
    split; [lia|]. split; [done|].
    assert (E : inject_Z 16777216 == 2 * inject_Z 8388608) by reflexivity.
    rewrite pow2_add, E. change (pow2 1) with 2. ring.
  - injection Hshr as <- <-. cbn. split; [lia|]. split; [lia|reflexivity].
Qed.

(** A finite result of [binary_round_aux] on binary32 has the given sign and
    lies within half a unit of its last place of the value rounded. *)
Lemma binary_round_aux_close x sx mx ex lx s m e :
  in_place x (shr_record_of_loc mx lx) ->
  binary_round_aux 24 128 sx mx ex lx = S754_finite s m e ->
  s = sx /\
  inject_Z (Z.pos m) * pow2 e - (1 # 2) * pow2 e <= x * pow2 ex /\
  x * pow2 ex <= inject_Z (Z.pos m) * pow2 e + (1 # 2) * pow2 e.
Proof.
  intros Hx Hround. unfold binary_round_aux in Hround.
  destruct (shr_fexp 24 128 mx ex lx) as [mrs1 e1] eqn:H1.
  destruct (shr_fexp_in_place _ _ _ _ _ _ Hx H1) as (Hx1 & Hex & Hemin & Hlt).
  pose proof (round_nearest_even_close _ _ Hx1) as Hrne. cbv zeta in Hrne.
  set (m1 := round_nearest_even (shr_m mrs1) (loc_of_shr_record mrs1)) in *.
  destruct Hrne as (Hm1 & Hm1' & Hlo & Hhi).
  destruct (shr_fexp 24 128 m1 e1 loc_Exact) as [mrs2 e2] eqn:H2.
  destruct (shr_fexp_rounded m1 e1 mrs2 e2 ltac:(lia) Hemin H2)
    as (He12 & Hm2 & Hval).
  destruct (shr_m mrs2) as [|p|p] eqn:Hp; [discriminate| |discriminate].
  destruct (e2 <=? 128 - 24)%Z; [|discriminate].
  injection Hround as <- <- <-. split; [done|].
  pose proof (pow2_pos e1) as Hp1. pose proof (pow2_le e1 e2 He12) as Hp12.
  assert (Hxe : x * pow2 ex == x * pow2 (ex - e1) * pow2 e1).
  { rewrite <- Qmult_assoc, <- pow2_add.
    replace (ex - e1 + e1)%Z with ex by lia. reflexivity. }
  rewrite Hval, Hxe. split; nra.
Qed.

(** [new_location n k] places the fraction [k / n]. *)
Lemma new_location_in_place n k q :
  (0 < n)%Z -> (0 <= k < n)%Z -> (0 <= q)%Z ->
  in_place (inject_Z q + inject_Z k / inject_Z n)
    (shr_record_of_loc q (new_location n k)).
Proof.
  intros Hn Hk Hq.
  assert (HN : 0 < inject_Z n) by (rewrite <- (Zlt_Qlt 0); lia).
  set (y := inject_Z k / inject_Z n).
  assert (Hy : y * inject_Z n == inject_Z k).
  { unfold y. field. lra. }
  assert (Hcmp : forall c : comparison,
    (2 * k ?= n)%Z = c ->
    match c with
    | Lt => 2 * inject_Z k < inject_Z n
    | Eq => 2 * inject_Z k == inject_Z n
    | Gt => inject_Z n < 2 * inject_Z k
    end).
  { intros c Hc. change 2 with (inject_Z 2). rewrite <- inject_Z_mult.
    destruct c.
    - apply Z.compare_eq in Hc. by rewrite Hc.
    - rewrite <- Zlt_Qlt. by apply Z.compare_lt_iff.
    - rewrite <- Zlt_Qlt. by apply Z.compare_gt_iff. }
  assert (HK : 0 <= inject_Z k /\ inject_Z k < inject_Z n).
  { split; [rewrite <- (Zle_Qle 0)|rewrite <- Zlt_Qlt]; lia. }
  unfold new_location.
  destruct (Z.even n) eqn:Heven;
    unfold new_location_even, new_location_odd;
    destruct (k =? 0)%Z eqn:Hk0.
  - apply Z.eqb_eq in Hk0. subst k.
    assert (y == 0) as Hy0 by (unfold y; field; lra).
    split; [exact Hq|]. cbn [shr_record_of_loc shr_m shr_r shr_s]. lra.
  - apply Z.eqb_neq in Hk0.
    assert (HK0 : 0 < inject_Z k) by (rewrite <- (Zlt_Qlt 0); lia).
    pose proof (Hcmp _ eq_refl) as Hc.
    destruct (2 * k ?= n)%Z; (split; [exact Hq|]); cbn [shr_record_of_loc shr_m shr_r shr_s]; try split; nra.
  - apply Z.eqb_eq in Hk0. subst k.
    assert (y == 0) as Hy0 by (unfold y; field; lra).
    split; [exact Hq|]. cbn [shr_record_of_loc shr_m shr_r shr_s]. lra.
  - apply Z.eqb_neq in Hk0.
    assert (HK0 : 0 < inject_Z k) by (rewrite <- (Zlt_Qlt 0); lia).
    assert (Hodd : (2 * k <> n)%Z).
    { intros <-. rewrite Z.even_mul in Heven. discriminate. }
    destruct (2 * k + 1 ?= n)%Z eqn:Hc1.
    + apply Z.compare_eq in Hc1.
      assert (Hc : (2 * k ?= n)%Z = Lt) by (apply Z.compare_lt_iff; lia).
      apply Hcmp in Hc. cbv beta iota in Hc. (split; [exact Hq|]);
        cbn [shr_record_of_loc shr_m shr_r shr_s];
        clearbody y; clear - Hy HN HK HK0 Hc; split; nra.
    + assert (Hlt : (2 * k + 1 < n)%Z) by exact Hc1.
      assert (Hc : (2 * k ?= n)%Z = Lt) by (apply Z.compare_lt_iff; lia).
      apply Hcmp in Hc. cbv beta iota in Hc. (split; [exact Hq|]);
        cbn [shr_record_of_loc shr_m shr_r shr_s];
        clearbody y; clear - Hy HN HK HK0 Hc; split; nra.
    + assert (Hgt : (2 * k + 1 > n)%Z) by exact Hc1.
      assert (Hc : (2 * k ?= n)%Z = Gt) by (apply Z.compare_gt_iff; lia).
      apply Hcmp in Hc. cbv beta iota in Hc. (split; [exact Hq|]);
        cbn [shr_record_of_loc shr_m shr_r shr_s];
        clearbody y; clear - Hy HN HK HK0 Hc; split; nra.
Qed.

Lemma F2Q_pos m e : 0 < F2Q m e.
Proof.
  unfold F2Q. apply Qmult_lt_0_compat; [|apply pow2_pos].
  rewrite <- (Zlt_Qlt 0). lia.
Qed.

Lemma SFmul_close sx mx ex sy my ey s m e :
  SFmul 24 128 (S754_finite sx mx ex) (S754_finite sy my ey)
    = S754_finite s m e ->
  s = xorb sx sy /\
  F2Q m e - (1 # 2) * pow2 e <= F2Q mx ex * F2Q my ey /\
  F2Q mx ex * F2Q my ey <= F2Q m e + (1 # 2) * pow2 e.
Proof.
  cbn [SFmul]. intros Hmul.
  destruct (binary_round_aux_close (inject_Z (Z.pos (mx * my)))
              _ _ _ _ _ _ _
              (in_place_of_loc_Exact (Z.pos (mx * my)) (Pos2Z.is_nonneg _))
              Hmul)
    as (Hs & Hlo & Hhi).
  split; [done|].
  assert (E : inject_Z (Z.pos (mx * my)) * pow2 (ex + ey)
              == F2Q mx ex * F2Q my ey).
  { unfold F2Q. rewrite Pos2Z.inj_mul, inject_Z_mult, pow2_add. ring. }
  rewrite E in Hlo, Hhi. split; [exact Hlo|exact Hhi].
Qed.

Lemma SFdiv_core_binary_in_place mx ex my ey q e l :
  SFdiv_core_binary 24 128 (Z.pos mx) ex (Z.pos my) ey = (q, e, l) ->
  exists X, in_place X (shr_record_of_loc q l) /\
            X * pow2 e == F2Q mx ex / F2Q my ey.
Proof.
  unfold SFdiv_core_binary.
  set (e' := Z.min _ _). set (s := (ex - ey - e')%Z).
  assert (Hs : (0 <= s)%Z) by (unfold s, e'; lia).
  set (m' := match s with Z0 => Z.pos mx | Z.pos _ => Z.shiftl (Z.pos mx) s
             | Z.neg _ => 0%Z end).
  assert (Hm' : m' = (Z.pos mx * 2 ^ s)%Z).
  { unfold m'. destruct s as [|p|p]; [cbn; lia| |lia].
    apply Z.shiftl_mul_pow2. lia. }
  assert (Hm'0 : (0 <= m')%Z) by (rewrite Hm'; apply Z.mul_nonneg_nonneg; lia).
  pose proof (Z_div_mod m' (Z.pos my) ltac:(lia)) as Hdm.
  destruct (Z.div_eucl m' (Z.pos my)) as [q' r]. destruct Hdm as [Heq Hr].
  intros [= <- <- <-].
  assert (Hq : (0 <= q')%Z) by nia.
  exists (inject_Z q' + inject_Z r / inject_Z (Z.pos my)).
  split; [apply new_location_in_place; lia|].
  assert (HM : 0 < inject_Z (Z.pos my)) by (rewrite <- (Zlt_Qlt 0); lia).
  pose proof (pow2_pos ey) as Hpe.
  assert (E1 : inject_Z q' + inject_Z r / inject_Z (Z.pos my)
               == inject_Z (Z.pos mx) * pow2 s / inject_Z (Z.pos my)).
  { rewrite <- pow2_Z by done. rewrite <- inject_Z_mult, <- Hm', Heq.
    rewrite inject_Z_plus, inject_Z_mult. field. lra. }
  assert (E2 : pow2 s * pow2 e' * pow2 ey == pow2 ex).
  { rewrite <- !pow2_add. replace (s + e' + ey)%Z with ex by (unfold s; lia).
    reflexivity. }
  rewrite E1. unfold F2Q. rewrite <- E2. field. split; lra.
Qed.

Lemma SFdiv_close sx mx ex sy my ey s m e :
  SFdiv 24 128 (S754_finite sx mx ex) (S754_finite sy my ey)
    = S754_finite s m e ->
  s = xorb sx sy /\
  F2Q m e - (1 # 2) * pow2 e <= F2Q mx ex / F2Q my ey /\
  F2Q mx ex / F2Q my ey <= F2Q m e + (1 # 2) * pow2 e.
Proof.
  cbn [SFdiv]. intros Hdiv.
  destruct (SFdiv_core_binary 24 128 (Z.pos mx) ex (Z.pos my) ey)
    as [[q e'] l] eqn:Hcore.
  destruct (SFdiv_core_binary_in_place _ _ _ _ _ _ _ Hcore) as (X & HX & EX).
  destruct (binary_round_aux_close X _ _ _ _ _ _ _ HX Hdiv)
    as (Hs & Hlo & Hhi).
  split; [done|]. rewrite EX in Hlo, Hhi. split; [exact Hlo|exact Hhi].
Qed.

Lemma normal_ulp s m e :
  is_normal (S754_finite s m e) = true ->
  (1 # 2) * pow2 e <= (1 # 16777216) * F2Q m e.
Proof.
  cbn. intros Hm. apply Pos.leb_le in Hm.
  assert (Hq : 8388608 <= inject_Z (Z.pos m)).
  { change 8388608 with (inject_Z 8388608). rewrite <- Zle_Qle. lia. }
  unfold F2Q. pose proof (pow2_pos e). nra.
Qed.

Lemma div_mul_within_tolerance (k v : spec_float) :
  is_normal (SFdiv 24 128 v k) = true ->
  is_normal (SFmul 24 128 (SFdiv 24 128 v k) k) = true ->
  within_tolerance (SFmul 24 128 (SFdiv 24 128 v k) k) v.
Proof.
  intros Hn1 Hn2.
  destruct (SFdiv 24 128 v k) as [| | |s1 m1 e1] eqn:Hdiv; try discriminate.
  destruct (SFmul 24 128 (S754_finite s1 m1 e1) k)
    as [| | |s2 m2 e2] eqn:Hmul; try discriminate.
  destruct k as [sk|sk| |sk mk ek]; try (cbn in Hmul; discriminate).
  destruct v as [sv|sv| |sv mv ev]; try (cbn in Hdiv; discriminate).
  destruct (SFdiv_close _ _ _ _ _ _ _ _ _ Hdiv) as (Hs1 & Hlo1 & Hhi1).
  destruct (SFmul_close _ _ _ _ _ _ _ _ _ Hmul) as (Hs2 & Hlo2 & Hhi2).
  pose proof (normal_ulp _ _ _ Hn1) as Hu1.
  pose proof (normal_ulp _ _ _ Hn2) as Hu2.
  cbn [within_tolerance]. split.
  { subst. by destruct sv, sk. }
  pose proof (F2Q_pos mv ev) as HA. pose proof (F2Q_pos mk ek) as HK.
  pose proof (F2Q_pos m1 e1) as HR1. pose proof (F2Q_pos m2 e2) as HR2.
  set (A := F2Q mv ev) in *. set (K := F2Q mk ek) in *.
  set (R1 := F2Q m1 e1) in *. set (R2 := F2Q m2 e2) in *.
  set (D := A / K) in *.
  assert (HD : D * K == A) by (unfold D; field; lra).
  clearbody D A K R1 R2.
  assert (H1 : (1 - (1 # 16777216)) * (R1 * K) <= A) by nra.
  assert (H2 : A <= (1 + (1 # 16777216)) * (R1 * K)) by nra.
  apply Qabs_Qle_condition. split; lra.
Qed.

End Binary32Rounding.

(** ** The round trip through a fixture property on binary32 *)

(** On binary32 with the factor 100 the round trip is not within tolerance
    for every value: [FLT_MAX] is stored as [FLT_MAX / 100] rounded up and
    reads back as +infinity, and the smallest positive float is stored as
    zero and reads back as zero. *)
Lemma fixture_properties_roundtrip_overflows :
  let P := PhysicsSystem_scaled (Float32.of_Z 100) in
  let fd := mkFixtureDef None Float32.zero Float32.zero Float32.zero in
  density_get (density_set fd Float32.max_float) = S754_infinity false /\
  ~ Float32.within_tolerance
      (density_get (density_set fd Float32.max_float)) Float32.max_float /\
  density_get (density_set fd Float32.min_subnormal) = S754_zero false /\
  ~ Float32.within_tolerance
      (density_get (density_set fd Float32.min_subnormal))
      Float32.min_subnormal.
Proof.
  intros P fd.
  assert (Hmax : density_get (density_set fd Float32.max_float)
                 = S754_infinity false) by (vm_compute; reflexivity).
  assert (Hmin : density_get (density_set fd Float32.min_subnormal)
                 = S754_zero false) by (vm_compute; reflexivity).
  rewrite Hmax, Hmin. repeat split; try reflexivity; intros H; exact H.
Qed.

(** C5. Each of the script properties density, friction and restitution of
    a fixture definition reads as the stored field times the conversion
    factor and is written as the given value divided by it, in binary32
    arithmetic.  Reading a property after setting it to [v] returns [v] up
    to floating-point tolerance (same sign, relative distance at most
    [2 ^ -22]) whenever neither the division nor the multiplication
    overflows or underflows, that is when the stored quotient and the value
    read back are normal numbers; and it returns [v] itself when [v] is a
    zero, an infinity or NaN and the factor is finite and not zero. *)
Theorem fixture_properties_roundtrip
    (P : PhysicsSystem Float32.float) (fd : b2FixtureDef Float32.float)
    (v : Float32.float) :
  ((density_get fd = Float32.mul (density fd) scale /\
    density (density_set fd v) = Float32.div v scale) /\
   (friction_get fd = Float32.mul (friction fd) scale /\
    friction (friction_set fd v) = Float32.div v scale) /\
   (restitution_get fd = Float32.mul (restitution fd) scale /\
    restitution (restitution_set fd v) = Float32.div v scale)) /\
  (Float32.is_normal (Float32.div v scale) = true ->
   Float32.is_normal (Float32.mul (Float32.div v scale) scale) = true ->
   Float32.within_tolerance (density_get (density_set fd v)) v /\
   Float32.within_tolerance (friction_get (friction_set fd v)) v /\
   Float32.within_tolerance (restitution_get (restitution_set fd v)) v) /\
  (Float32.is_finite_nonzero scale = true ->
   Float32.is_finite_nonzero v = false ->
   Float32.within_tolerance (density_get (density_set fd v)) v /\
   Float32.within_tolerance (friction_get (friction_set fd v)) v /\
   Float32.within_tolerance (restitution_get (restitution_set fd v)) v).
Proof.
  split; [repeat split|]. split.
  - intros Hn1 Hn2.
    pose proof (div_mul_within_tolerance scale v Hn1 Hn2) as Htol.
    repeat split; exact Htol.
  - intros Hk Hv.
    assert (Hexact : Float32.within_tolerance
                       (Float32.mul (Float32.div v scale) scale) v).
    { rewrite (div_mul_special scale v Hk Hv).
      destruct v; try discriminate; reflexivity. }
    repeat split; exact Hexact.
Qed.

Lemma fixture_properties_roundtrip_witness :
  let P := PhysicsSystem_scaled (Float32.of_Z 100) in
  let fd := mkFixtureDef None Float32.zero Float32.zero Float32.zero in
  let v := Float32.of_Z 15 in
  Float32.is_normal (Float32.div v scale) = true /\
  Float32.is_normal (Float32.mul (Float32.div v scale) scale) = true /\
  Float32.within_tolerance (density_get (density_set fd v)) v /\
  Float32.within_tolerance (friction_get (friction_set fd v)) v /\
  Float32.within_tolerance (restitution_get (restitution_set fd v)) v.
Proof.
  intros P fd v.
  assert (Hn1 : Float32.is_normal (Float32.div v scale) = true)
    by (vm_compute; reflexivity).
  assert (Hn2 : Float32.is_normal (Float32.mul (Float32.div v scale) scale)
                = true) by (vm_compute; reflexivity).
  split; [exact Hn1|]. split; [exact Hn2|].
  exact (proj1 (proj2 (fixture_properties_roundtrip P fd v)) Hn1 Hn2).
Defined.

Section WarpAndGravity.
Context {F : Type} `{Scalar F} `{PhysicsSystem F} `{b2Math F}.
Implicit Types (s : State F) (b : b2Body F) (h : nat).

(** A warp does not touch the gravity scale, and the two are independent:
    the property [gravity] reads the same before and after a warp, and
    writing it before the warp or after it leads to the same state. *)
Theorem warpTo_and_gravity_commute s s1 (dest : Vector2f F) (g : F) :
  warpToVec dest s = Some s1 ->
  gravity_get s1 = gravity_get s /\
  (gravity_set g s ≫= warpToVec dest) = gravity_set g s1.
Proof.
  intros Hw. destruct (warpToVec_inv s s1 dest Hw) as (h & b & Hh & Hb).
  rewrite (warpToVec_valid s h b) in Hw by done. injection Hw as <-.
  split.
  - unfold gravity_get.
    rewrite (query_valid _ _ _ (deref_store _ _ _ Hh)).
    by rewrite (query_valid _ _ _ (deref_valid _ _ _ Hh Hb)).
  - unfold gravity_set.
    erewrite (call_valid _ s h b) by eauto. cbn.
    erewrite warpToVec_valid;
      [| by rewrite store_self | apply lookup_insert_eq].
    erewrite call_valid;
      [| by rewrite store_self | apply lookup_insert_eq | reflexivity].
    by rewrite !store_store.
Qed.

End WarpAndGravity.

(** ** The properties of scripts at sample values *)

Section ScriptWitnesses.
Import Sample.
#[local] Existing Instance physics.
#[local] Existing Instance unrotated.

Lemma only_instantiate_changes_component_witness :
  let s := fresh_component in
  let h := (CreateBody emptyWorld dynamicDef).1 in
  let dest := mkVector2f (Float32.of_Z 200) (Float32.of_Z 300) in
  let s' := store h (SetLinearVelocity (mkb2Vec2 fzero fzero)
                       (SetTransform (convertToB2 dest)
                          (GetAngle (b2Body_new dynamicDef))
                          (b2Body_new dynamicDef))) s in
  is_instantiate (M_warpToVec dest) = false /\
  invoke (M_warpToVec dest) s = Some s' /\
  self s' = self s /\
  dom (m_bodyList (world s')) = dom (m_bodyList (world s)).
Proof.
  intros s h dest s'.
  destruct fresh_component_valid as [Hh Hb].
  assert (Hinv : invoke (M_warpToVec dest) s = Some s')
    by exact (warpToVec_valid s h _ dest Hh Hb).
  split; [reflexivity|]. split; [exact Hinv|].
  destruct (only_instantiate_changes_component (M_warpToVec dest) s s'
              eq_refl Hinv) as (Hself & Hdom & _).
  by split.
Defined.

Lemma scripts_never_fault_witness :
  let ms := [M_warpTo (Float32.of_Z 200) (Float32.of_Z 300);
             M_instantiate staticDef;
             M_addFixture boxFixture;
             M_applyImpulseRel (Float32.of_Z 100) Float32.zero
               (Float32.of_Z 100) (Float32.of_Z 100)] in
  is_Some (deref fresh_component) /\
  Forall (fun m => has_shape m = true) ms /\
  exists s', run ms fresh_component = Some s' /\ is_Some (deref s').
Proof.
  intros ms.
  assert (Hd : is_Some (deref fresh_component)).
  { unfold fresh_component. rewrite deref_new. eauto. }
  assert (Hms : Forall (fun m => has_shape m = true) ms).
  { repeat constructor. }
  split; [exact Hd|]. split; [exact Hms|].
  exact (scripts_never_fault ms fresh_component Hd Hms).
Defined.

Lemma dispose_list_in_order_witness :
  let ms := [M_instantiate staticDef; M_instantiate dynamicDef] in
  let s' := instantiateBody dynamicDef
              (instantiateBody staticDef fresh_component) in
  run ms (new emptyWorld dynamicDef) = Some s' /\
  NoDup (disposeList_ (self s')).
Proof.
  intros ms s'.
  assert (Hrun : run ms (new emptyWorld dynamicDef) = Some s')
    by reflexivity.
  split; [exact Hrun|].
  apply (dispose_list_in_order ms emptyWorld dynamicDef s' Hrun).
Defined.

Lemma instantiate_calls_counted_witness :
  let ms := [M_instantiate staticDef; M_instantiate dynamicDef] in
  let s' := instantiateBody dynamicDef
              (instantiateBody staticDef fresh_component) in
  is_Some (body_ (self fresh_component)) /\
  run ms fresh_component = Some s' /\
  length (disposeList_ (self s'))
    = length (disposeList_ (self fresh_component))
      + length (filter is_instantiate ms).
Proof.
  intros ms s'.
  assert (Hb : is_Some (body_ (self fresh_component))) by (cbn; eauto).
  assert (Hrun : run ms fresh_component = Some s') by reflexivity.
  split; [exact Hb|]. split; [exact Hrun|].
  apply (instantiate_calls_counted ms fresh_component s' Hb Hrun).
Defined.

Lemma warpTo_last_wins_witness :
  let s := fresh_component in
  let h := (CreateBody emptyWorld dynamicDef).1 in
  let d1 := mkVector2f (Float32.of_Z 200) (Float32.of_Z 300) in
  let d2 := mkVector2f (Float32.of_Z 500) Float32.zero in
  let s1 := store h (SetLinearVelocity (mkb2Vec2 fzero fzero)
                       (SetTransform (convertToB2 d1)
                          (GetAngle (b2Body_new dynamicDef))
                          (b2Body_new dynamicDef))) s in
  warpToVec d1 s = Some s1 /\
  warpToVec d2 s1 = warpToVec d2 s /\ warpToVec d1 s1 = Some s1.
Proof.
  intros s h d1 d2 s1.
  destruct fresh_component_valid as [Hh Hb].
  assert (Hw : warpToVec d1 s = Some s1)
    by exact (warpToVec_valid s h _ d1 Hh Hb).
  split; [exact Hw|].
  exact (warpTo_last_wins s s1 d1 d2 Hw).
Defined.

Lemma warpTo_and_gravity_commute_witness :
  let s := fresh_component in
  let h := (CreateBody emptyWorld dynamicDef).1 in
  let dest := mkVector2f (Float32.of_Z 200) (Float32.of_Z 300) in
  let s1 := store h (SetLinearVelocity (mkb2Vec2 fzero fzero)
                       (SetTransform (convertToB2 dest)
                          (GetAngle (b2Body_new dynamicDef))
                          (b2Body_new dynamicDef))) s in
  warpToVec dest s = Some s1 /\
  gravity_get s1 = gravity_get s /\
  (gravity_set (Float32.of_Z 3) s ≫= warpToVec dest)
    = gravity_set (Float32.of_Z 3) s1.
Proof.
  intros s h dest s1.
  destruct fresh_component_valid as [Hh Hb].
  assert (Hw : warpToVec dest s = Some s1)
    by exact (warpToVec_valid s h _ dest Hh Hb).
  split; [exact Hw|].
  exact (warpTo_and_gravity_commute s s1 dest (Float32.of_Z 3) Hw).
Defined.

End ScriptWitnesses.

Section CompositionWitnesses.
Import Sample.
#[local] Existing Instance physics.
#[local] Existing Instance unrotated.

Lemma instantiate_discards_configuration_witness :
  let s := fresh_component in
  let h := (CreateBody emptyWorld dynamicDef).1 in
  let g := Float32.of_Z 3 in
  let b1 := mkBody b2_dynamicBody
              (mkb2Vec2 (Float32.of_Z 3) (Float32.of_Z 4)) Float32.zero
              (mkb2Vec2 (Float32.of_Z 1) (Float32.of_Z 2)) (Float32.of_Z 1)
              [boxFixture] [] in
  let s1 := store h b1 s in
  let s2 := store h (SetGravityScale g b1) s1 in
  let s3 := instantiateBody staticDef s2 in
  body_ (self s) = Some h /\
  addFixture boxFixture s = Some s1 /\
  gravity_set g s1 = Some s2 /\
  h ∈ disposeList_ (self s3) /\
  body_ (self s3) <> Some h.
Proof.
  intros s h g b1 s1 s2 s3.
  destruct fresh_component_valid as [Hh Hb].
  assert (Hadd : addFixture boxFixture s = Some s1)
    by exact (call_valid _ s h _ b1 Hh Hb eq_refl).
  assert (Hb1 : m_bodyList (world s1) !! h = Some b1)
    by apply lookup_insert_eq.
  assert (Hgrav : gravity_set g s1 = Some s2)
    by exact (call_valid _ s1 h b1 _ Hh Hb1 eq_refl).
  split; [exact Hh|]. split; [exact Hadd|]. split; [exact Hgrav|].
  apply (instantiate_discards_configuration s s1 s2 h boxFixture g staticDef
           Hh Hadd Hgrav).
Defined.

Lemma components_do_not_share_bodies_witness :
  let s1 := new emptyWorld dynamicDef in
  let s2 := new (world s1) staticDef in
  let m := M_instantiate dynamicDef in
  invoke m s2 = Some (instantiateBody dynamicDef s2) /\
  body_ (self s1) <> body_ (self s2).
Proof.
  intros s1 s2 m.
  assert (Hinv : invoke m s2 = Some (instantiateBody dynamicDef s2))
    by reflexivity.
  split; [exact Hinv|].
  apply (components_do_not_share_bodies emptyWorld dynamicDef staticDef m
           (instantiateBody dynamicDef s2) Hinv).
Defined.

Lemma fixture_properties_exact_on_special_values_witness :
  let v := S754_zero true in
  Float32.is_finite_nonzero (@scale _ physics) = true /\
  Float32.is_finite_nonzero v = false /\
  density_get (density_set boxFixture v) = v.
Proof.
  intros v.
  assert (Hk : Float32.is_finite_nonzero (@scale _ physics) = true)
    by reflexivity.
  assert (Hv : Float32.is_finite_nonzero v = false) by reflexivity.
  split; [exact Hk|]. split; [exact Hv|].
  apply (fixture_properties_exact_on_special_values physics boxFixture v
           Hk Hv).
Defined.

Lemma fixture_properties_degenerate_factor_witness :
  let P := PhysicsSystem_scaled Float32.zero in
  let v := Float32.of_Z 15 in
  Float32.is_finite_nonzero (@scale _ P) = false /\
  density_get (density_set boxFixture v) = S754_nan.
Proof.
  intros P v.
  assert (Hk : Float32.is_finite_nonzero (@scale _ P) = false)
    by reflexivity.
  split; [exact Hk|].
  apply (fixture_properties_degenerate_factor P boxFixture v Hk).
Defined.

End CompositionWitnesses.
